(** * The transaction-history screen, [app/(tabs)/history.tsx]

    A shallow embedding of [HistoryTabScreen]: the derived data of a render
    pass ([groupedTransactions], [sortedDates], the rendered sections) and the
    handlers ([loadTransactions], [handleTransactionTap],
    [handleReceiptConfirm] and the [onPress] of its confirm button).

    What the component imports is taken as a parameter: the [Date] built-in,
    the localisation function [t] and the storage service. *)

From Stdlib Require Import List String ZArith Bool Lia Permutation Sorted.
Import ListNotations.
Local Open Scope string_scope.
Local Open Scope Z_scope.

(** ** Data model *)

(** Modelled from the spec: the line items of a transaction, declared in
    [data/mockData] (name, quantity, price); the field names are the ones
    [renderTransaction] reads. *)
Record CartItem : Type := {
  name : string;
  quantity : Z;
  price : Z
}.

(** Modelled from the spec: the [Transaction] type declared in
    [data/mockData]: identifier, date, total amount, line items, the
    receipt-confirmation flag, the confirmed total and the optional loan
    identifier.  The field names are the ones this file reads and writes. *)
Record Transaction : Type := {
  transaction_id : string;
  date : string;
  total : Z;
  items : list CartItem;
  has_good_receipt : bool;
  good_receipt_total : option Z;
  loan_id : option string
}.

(** ** JavaScript objects used as maps, in insertion order

    [groupedTransactions] is a [Record<string, Transaction[]>] built from
    [{}].  Its keys are date strings, never array indices, so [Object.keys]
    lists them in the order in which they were first assigned. *)
Module Obj.
Section Obj.
Context {V : Type}.

Definition obj := list (string * V).

Definition empty : obj := [].

(** [o[k]], [None] for [undefined]. *)
Fixpoint get (k : string) (o : obj) : option V :=
  match o with
  | [] => None
  | (k', v) :: o' => if String.eqb k' k then Some v else get k o'
  end.

(** [o[k] = v]: an existing property keeps its place, a new one comes
    last. *)
Fixpoint set (k : string) (v : V) (o : obj) : obj :=
  match o with
  | [] => [(k, v)]
  | (k', v') :: o' =>
      if String.eqb k' k then (k', v) :: o' else (k', v') :: set k v o'
  end.

(** [Object.keys(o)]. *)
Definition keys (o : obj) : list string := map fst o.

Definition values (o : obj) : list V := map snd o.
End Obj.
Arguments obj : clear implicits.
End Obj.

(** ** The render pass: grouping and sorting *)

Section Render.

(** [new Date(s).toLocaleDateString('en-CA')]: the local calendar date of
    the instant [s] denotes, as YYYY-MM-DD. *)
Variable toLocaleDateString_enCA : string -> string.

(** [new Date(s).getTime()]: milliseconds since the epoch, [None] for
    [NaN] (an invalid date). *)
Variable getTime : string -> option Z.

(** The callback of [transactions.reduce]. *)
Definition groupStep (groups : Obj.obj (list Transaction))
    (transaction : Transaction) : Obj.obj (list Transaction) :=
  let date := toLocaleDateString_enCA (date transaction) in
  let groups :=
    match Obj.get date groups with
    | None => Obj.set date [] groups         (* if (!groups[date]) *)
    | Some _ => groups
    end in
  match Obj.get date groups with              (* groups[date].push(..) *)
  | Some g => Obj.set date (g ++ [transaction])%list groups
  | None => groups
  end.

Definition groupedTransactions (transactions : list Transaction)
  : Obj.obj (list Transaction) :=
  fold_left groupStep transactions Obj.empty.

(** The comparator handed to [sort]; [None] is [NaN]. *)
Definition compareDates (a b : string) : option Z :=
  match getTime (b ++ "T00:00:00"), getTime (a ++ "T00:00:00") with
  | Some tb, Some ta => Some (tb - ta)
  | _, _ => None
  end.

(** [Array.prototype.sort]'s use of a comparator: a [NaN] result counts
    as [+0]. *)
Definition sortCompare (cmp : string -> string -> option Z)
    (a b : string) : Z :=
  match cmp a b with
  | Some v => v
  | None => 0
  end.

(** [Array.prototype.sort] is a stable sort; with a consistent comparator
    every stable sort returns the same array.  It is modelled here by
    insertion from the left: a later element moves in front of the earlier
    ones that the comparator puts strictly after it.  With a comparator that
    is not consistent (one that returns [NaN] for some pairs and an order
    for others) the language leaves the order of the result to the engine,
    and an engine may arrange the elements differently from this model;
    the result is a rearrangement of the input either way. *)
Fixpoint insertSorted (cmp : string -> string -> option Z)
    (x : string) (l : list string) : list string :=
  match l with
  | [] => [x]
  | y :: l' =>
      if sortCompare cmp y x <=? 0
      then y :: insertSorted cmp x l'
      else x :: y :: l'
  end.

Definition sort (cmp : string -> string -> option Z) (l : list string)
  : list string :=
  fold_left (fun acc x => insertSorted cmp x acc) l [].

Definition sortedDates (transactions : list Transaction) : list string :=
  sort compareDates (Obj.keys (groupedTransactions transactions)).

(** *** What a render pass puts on the screen *)

(** The callbacks the screen hands to its touchables and alert buttons. *)
Inductive Callback : Type :=
| OnTransactionTap (item : Transaction)    (* () => handleTransactionTap(item) *)
| OnReceiptConfirm (item : Transaction)    (* () => handleReceiptConfirm(item) *)
| OnConfirmPress (transaction : Transaction) (* the async onPress of "confirm" *)
| NoCallback.

(** The card of one transaction: its [onPress], and the pending-receipt
    button, which is rendered only while [has_good_receipt] is false. *)
Record Card : Type := {
  card_item : Transaction;
  card_onPress : Callback;
  card_receiptPending : option Callback
}.

Definition renderTransaction (item : Transaction) : Card :=
  {| card_item := item;
     card_onPress := OnTransactionTap item;
     card_receiptPending :=
       if has_good_receipt item then None else Some (OnReceiptConfirm item) |}.

Record DateSection : Type := {
  section_date : string;
  section_cards : list Card
}.

Definition renderDateSection (groupedTransactions : Obj.obj (list Transaction))
    (item : string) : DateSection :=
  {| section_date := item;
     section_cards :=
       map renderTransaction
         match Obj.get item groupedTransactions with
         | Some g => g
         | None => []
         end |}.

Inductive Screen : Type :=
| LoadingIndicator
| TransactionList (sections : list DateSection).

Definition render (transactions : list Transaction) (loading : bool) : Screen :=
  if loading then LoadingIndicator
  else TransactionList
         (map (renderDateSection (groupedTransactions transactions))
              (sortedDates transactions)).

Definition cardCallbacks (c : Card) : list Callback :=
  card_onPress c ::
  match card_receiptPending c with
  | Some b => [b]
  | None => []
  end.

Definition screenCallbacks (s : Screen) : list Callback :=
  match s with
  | LoadingIndicator => []
  | TransactionList sections =>
      flat_map (fun d => flat_map cardCallbacks (section_cards d)) sections
  end.

End Render.

(** ** The collaborators of the screen *)

Definition Error : Type := string.

(** [services/storage], as the screen calls it: both calls are awaited and
    either resolve or reject ([inl]); a read does not change the store, and
    a save that rejects leaves it as it was. *)
Class StorageService : Type := {
  Store : Type;
  getTransactions : Store -> Error + list Transaction;
  saveTransaction : Transaction -> Store -> Error + Store
}.

(** The buttons and dialogs of [Alert.alert]. *)
Record Button : Type := {
  text : string;
  style : option string;
  onPress : Callback
}.

Record AlertDialog : Type := {
  title : string;
  message : string;
  buttons : list Button
}.

Inductive StorageCall : Type :=
| CallGetTransactions
| CallSaveTransaction (transaction : Transaction).

(** ** State and effects

    The component state ([transactions], [loading]) together with what the
    handlers act on: the store, the console, the alerts shown, the routes
    pushed, and the storage calls issued so far.  A handler runs from its
    start to its end on one world: what else may happen while it awaits is
    not part of this model, and no world stands for the time during which a
    storage call is pending. *)
Record World `{StorageService} : Type := {
  store : Store;
  transactions : list Transaction;
  loading : bool;
  console : list (string * Error);
  alerts : list AlertDialog;
  navigation : list string;
  calls : list StorageCall
}.

Section Handlers.
Context `{StorageService}.

(** [t(key, params?)] of [useLanguage]. *)
Variable t : string -> list (string * string) -> string.

(** A handler runs on the world and either returns or throws. *)
Definition M (A : Type) : Type := World -> (Error + A) * World.

Definition ret {A} (a : A) : M A := fun w => (inr a, w).

Definition bind {A B} (m : M A) (k : A -> M B) : M B :=
  fun w =>
    match m w with
    | (inr a, w') => k a w'
    | (inl e, w') => (inl e, w')
    end.

Notation "x <- m ;; k" := (bind m (fun x => k))
  (at level 61, m at next level, right associativity).
Notation "m ;; k" := (bind m (fun _ => k))
  (at level 61, right associativity).

(** [try { body } catch (error) { handler }] *)
Definition try_catch {A} (body : M A) (handler : Error -> M A) : M A :=
  fun w =>
    match body w with
    | (inr a, w') => (inr a, w')
    | (inl e, w') => handler e w'
    end.

(** [try { body } finally { final }] *)
Definition try_finally {A} (body : M A) (final : M unit) : M A :=
  fun w =>
    match body w with
    | (r, w') =>
        match final w' with
        | (inr _, w'') => (r, w'')
        | (inl e, w'') => (inl e, w'')
        end
    end.

(** The world a handler leaves behind. *)
Definition exec {A} (m : M A) (w : World) : World := snd (m w).

Definition await_getTransactions : M (list Transaction) :=
  fun w =>
    (getTransactions (store w),
     {| store := store w; transactions := transactions w;
        loading := loading w; console := console w; alerts := alerts w;
        navigation := navigation w;
        calls := (calls w ++ [CallGetTransactions])%list |}).

Definition await_saveTransaction (transaction : Transaction) : M unit :=
  fun w =>
    let issued := (calls w ++ [CallSaveTransaction transaction])%list in
    match saveTransaction transaction (store w) with
    | inr s' =>
        (inr tt,
         {| store := s'; transactions := transactions w;
            loading := loading w; console := console w; alerts := alerts w;
            navigation := navigation w; calls := issued |})
    | inl e =>
        (inl e,
         {| store := store w; transactions := transactions w;
            loading := loading w; console := console w; alerts := alerts w;
            navigation := navigation w; calls := issued |})
    end.

Definition setTransactions (l : list Transaction) : M unit :=
  fun w =>
    (inr tt,
     {| store := store w; transactions := l; loading := loading w;
        console := console w; alerts := alerts w;
        navigation := navigation w; calls := calls w |}).

Definition setLoading (b : bool) : M unit :=
  fun w =>
    (inr tt,
     {| store := store w; transactions := transactions w; loading := b;
        console := console w; alerts := alerts w;
        navigation := navigation w; calls := calls w |}).

Definition console_error (msg : string) (error : Error) : M unit :=
  fun w =>
    (inr tt,
     {| store := store w; transactions := transactions w;
        loading := loading w;
        console := (console w ++ [(msg, error)])%list; alerts := alerts w;
        navigation := navigation w; calls := calls w |}).

Definition Alert_alert (title message : string) (buttons : list Button)
  : M unit :=
  fun w =>
    (inr tt,
     {| store := store w; transactions := transactions w;
        loading := loading w; console := console w;
        alerts :=
          (alerts w ++
           [{| title := title; message := message; buttons := buttons |}])%list;
        navigation := navigation w; calls := calls w |}).

Definition router_push (href : string) : M unit :=
  fun w =>
    (inr tt,
     {| store := store w; transactions := transactions w;
        loading := loading w; console := console w; alerts := alerts w;
        navigation := (navigation w ++ [href])%list; calls := calls w |}).

(** [await new Promise(resolve => setTimeout(resolve, ms))]: the handler
    resumes later; nothing of the world is touched by the wait itself. *)
Definition sleep (ms : Z) : M unit := ret tt.

(** *** The handlers *)

Definition loadTransactions : M unit :=
  try_finally
    (try_catch
       (storedTransactions <- await_getTransactions ;;
        setTransactions storedTransactions)
       (fun error => console_error "Error loading transactions:" error))
    (setLoading false).

Definition handleTransactionTap (transaction : Transaction) : M unit :=
  router_push ("/order-detail?transactionId=" ++ transaction_id transaction).

(** [{ ...transaction, has_good_receipt: true,
       good_receipt_total: transaction.total }] *)
Definition updatedTransaction (transaction : Transaction) : Transaction :=
  {| transaction_id := transaction_id transaction;
     date := date transaction;
     total := total transaction;
     items := items transaction;
     has_good_receipt := true;
     good_receipt_total := Some (total transaction);
     loan_id := loan_id transaction |}.

(** The [onPress] of the confirm button. *)
Definition confirmOnPress (transaction : Transaction) : M unit :=
  try_catch
    (sleep 1000 ;;
     await_saveTransaction (updatedTransaction transaction) ;;
     loadTransactions ;;
     Alert_alert (t "confirmReceipt" []) (t "receiptConfirmed" []) [])
    (fun error =>
       console_error "Error confirming transaction:" error ;;
       Alert_alert (t "error" []) (t "receiptConfirmError" []) []).

Definition handleReceiptConfirm (transaction : Transaction) : M unit :=
  if has_good_receipt transaction then ret tt           (* Already confirmed *)
  else
    Alert_alert
      (t "confirmReceipt" [])
      (t "confirmReceiptMessage"
         [("transactionId", transaction_id transaction)])
      [ {| text := t "cancel" []; style := Some "cancel";
           onPress := NoCallback |};
        {| text := t "confirm" []; style := None;
           onPress := OnConfirmPress transaction |} ].

Definition invoke (c : Callback) : M unit :=
  match c with
  | OnTransactionTap item => handleTransactionTap item
  | OnReceiptConfirm item => handleReceiptConfirm item
  | OnConfirmPress transaction => confirmOnPress transaction
  | NoCallback => ret tt
  end.

End Handlers.

(** ** The behaviour of the mounted screen *)

Section Behaviour.
Context `{StorageService}.
Variable toLocaleDateString_enCA : string -> string.
Variable getTime : string -> option Z.
Variable t : string -> list (string * string) -> string.

(** What happens to the screen: it is mounted ([useEffect]), it comes into
    focus ([useFocusEffect]), or the user presses something it offers. *)
Inductive Event : Type :=
| Mounted
| Focused
| Pressed (c : Callback).

(** The callbacks within the user's reach: those of the rendered cards and
    those of the buttons of the alerts shown. *)
Definition offered (w : World) : list Callback :=
  (screenCallbacks
     (render toLocaleDateString_enCA getTime (transactions w) (loading w))
   ++ flat_map (fun a => map onPress (buttons a)) (alerts w))%list.

Inductive step (w : World) : Event -> World -> Prop :=
| step_mounted : step w Mounted (exec loadTransactions w)
| step_focused : step w Focused (exec loadTransactions w)
| step_pressed (c : Callback) :
    In c (offered w) -> step w (Pressed c) (exec (invoke t c) w).

(** [useState([])], [useState(true)], nothing done yet. *)
Definition initialWorld (s : Store) : World :=
  {| store := s; transactions := []; loading := true; console := [];
     alerts := []; navigation := []; calls := [] |}.

Inductive reachable : World -> Prop :=
| reachable_initial (s : Store) : reachable (initialWorld s)
| reachable_step (w : World) (e : Event) (w' : World) :
    reachable w -> step w e w' -> reachable w'.

End Behaviour.

(** ** The storage contract *)

(** Modelled from the spec: [services/storage] is not among the sources; the
    spec gives its contract as [getTransactions() -> list<Transaction>] (read
    all) and [saveTransaction(Transaction) -> void] (upsert one).  [upsert]
    replaces the record that carries the transaction's identifier and adds
    the transaction when no record does. *)
Fixpoint upsert (transaction : Transaction) (l : list Transaction)
  : list Transaction :=
  match l with
  | [] => [transaction]
  | x :: l' =>
      if String.eqb (transaction_id x) (transaction_id transaction)
      then transaction :: l'
      else x :: upsert transaction l'
  end.

(** The record stored under an identifier. *)
Fixpoint findTransaction (id : string) (l : list Transaction)
  : option Transaction :=
  match l with
  | [] => None
  | x :: l' =>
      if String.eqb (transaction_id x) id then Some x
      else findTransaction id l'
  end.

(** Modelled from the spec: a storage service honours the contract when its
    store holds a list of records, a read that resolves returns all of them
    and a save that resolves has upserted its argument. *)
Definition honoursContract `{StorageService}
    (recordsOf : Store -> list Transaction) : Prop :=
  (forall s l, getTransactions s = inr l -> l = recordsOf s) /\
  (forall u s s', saveTransaction u s = inr s' ->
                  recordsOf s' = upsert u (recordsOf s)).

(** Modelled from the spec: a store kept in memory that upserts on save and
    returns its records on read, and that rejects reads or writes while it
    is not [readable] or not [writable]. *)
Record MemoryStore : Type := {
  records : list Transaction;
  readable : bool;
  writable : bool
}.

Definition memoryStorage : StorageService :=
  {| Store := MemoryStore;
     getTransactions := fun s =>
       if readable s then inr (records s) else inl "storage cannot be read";
     saveTransaction := fun u s =>
       if writable s
       then inr {| records := upsert u (records s);
                   readable := readable s; writable := writable s |}
       else inl "storage cannot be written" |}.

(** ** A reference [Date]

    The [Date] built-in for the strings YYYY-MM-DD and YYYY-MM-DDTHH:mm:ss
    on a device whose time zone is UTC; every other string is an invalid
    date.  The theorems below hold for any [Date]; this one serves to run
    the screen on concrete transactions. *)
Module UTCDate.

Definition digit (c : Ascii.ascii) : option Z :=
  let n := Z.of_nat (Ascii.nat_of_ascii c) in
  if (48 <=? n) && (n <=? 57) then Some (n - 48) else None.

Fixpoint digits (s : string) (acc : Z) : option Z :=
  match s with
  | EmptyString => Some acc
  | String c s' =>
      match digit c with
      | Some d => digits s' (10 * acc + d)
      | None => None
      end
  end.

Definition field (s : string) (from len : nat) : option Z :=
  let f := substring from len s in
  if Nat.eqb (String.length f) len then digits f 0 else None.

Definition isLeap (y : Z) : bool :=
  ((y mod 4 =? 0) && negb (y mod 100 =? 0)) || (y mod 400 =? 0).

Definition daysInMonth (y m : Z) : Z :=
  if m =? 2 then (if isLeap y then 29 else 28)
  else if (m =? 4) || (m =? 6) || (m =? 9) || (m =? 11) then 30
  else 31.

(** Days from 1970-01-01 to the civil date [y]-[m]-[d]. *)
Definition daysFromCivil (y m d : Z) : Z :=
  let y' := if m <=? 2 then y - 1 else y in
  let era := y' / 400 in
  let yoe := y' - era * 400 in
  let doy := (153 * (if 2 <? m then m - 3 else m + 9) + 2) / 5 + d - 1 in
  let doe := yoe * 365 + yoe / 4 - yoe / 100 + doy in
  era * 146097 + doe - 719468.

Definition parseDay (s : string) : option Z :=
  match field s 0 4, field s 5 2, field s 8 2 with
  | Some y, Some m, Some d =>
      if String.eqb (substring 4 1 s) "-" && String.eqb (substring 7 1 s) "-"
         && (1 <=? m) && (m <=? 12) && (1 <=? d) && (d <=? daysInMonth y m)
      then Some (daysFromCivil y m d)
      else None
  | _, _, _ => None
  end.

Definition parseClock (s : string) : option Z :=
  match field s 11 2, field s 14 2, field s 17 2 with
  | Some h, Some mi, Some se =>
      if String.eqb (substring 10 1 s) "T"
         && String.eqb (substring 13 1 s) ":"
         && String.eqb (substring 16 1 s) ":"
         && (h <=? 23) && (mi <=? 59) && (se <=? 59)
      then Some (((h * 60 + mi) * 60 + se) * 1000)
      else None
  | _, _, _ => None
  end.

Definition getTime (s : string) : option Z :=
  match parseDay s with
  | Some days =>
      if Nat.eqb (String.length s) 10 then Some (days * 86400000)
      else if Nat.eqb (String.length s) 19 then
        match parseClock s with
        | Some ms => Some (days * 86400000 + ms)
        | None => None
        end
      else None
  | None => None
  end.

Definition toLocaleDateString_enCA (s : string) : string :=
  match getTime s with
  | Some _ => substring 0 10 s
  | None => "Invalid Date"
  end.

End UTCDate.

(** ** Vocabulary of the statements *)

(** The instant the comparator of [sortedDates] reads off a date key. *)
Definition midnight (getTime : string -> option Z) (key : string) : option Z :=
  getTime (key ++ "T00:00:00").

(** [a] is a later calendar day than [b]. *)
Definition laterDay (getTime : string -> option Z) (a b : string) : Prop :=
  match midnight getTime a, midnight getTime b with
  | Some ta, Some tb => tb < ta
  | _, _ => False
  end.

(** The midnight of a key, with a default for the keys that have none. *)
Definition midnightOr0 (getTime : string -> option Z) (k : string) : Z :=
  match midnight getTime k with
  | Some v => v
  | None => 0
  end.

(** The dates of the sections of a screen, top to bottom. *)
Definition sectionDates (s : Screen) : list string :=
  match s with
  | LoadingIndicator => []
  | TransactionList sections => map section_date sections
  end.

(** The group stored under a date key, empty when there is none. *)
Definition groupOf (k : string) (o : Obj.obj (list Transaction))
  : list Transaction :=
  match Obj.get k o with
  | Some g => g
  | None => []
  end.

(** ** Sample data *)

(** A transaction awaiting its receipt confirmation. *)
Definition pendingTransaction (id date : string) (total : Z) : Transaction :=
  {| transaction_id := id; date := date; total := total;
     items := [ {| name := "Beras 5kg"; quantity := 1; price := total |} ];
     has_good_receipt := false; good_receipt_total := None;
     loan_id := None |}.

Definition TX1 : Transaction :=
  pendingTransaction "TX1" "2024-01-01T09:15:00" 50000.

Definition TX2 : Transaction :=
  pendingTransaction "TX2" "2024-01-02T17:40:00" 72500.

(** Localisation that shows the keys themselves. *)
Definition keysAsText (key : string) (params : list (string * string)) : string :=
  key.

(** The screen showing [TX1], loaded earlier, over a store that has since
    stopped answering reads. *)
Definition staleScreen : @World memoryStorage :=
  @Build_World memoryStorage
    {| records := [TX1]; readable := false; writable := true |}
    (* transactions *) [TX1] (* loading *) false (* console *) []
    (* alerts *) [] (* navigation *) [] (* calls *) [CallGetTransactions].

(** The screen showing [TX1] and [TX2] over a store that takes reads but
    rejects writes. *)
Definition readOnlyScreen : @World memoryStorage :=
  @Build_World memoryStorage
    {| records := [TX1; TX2]; readable := true; writable := false |}
    (* transactions *) [TX1; TX2] (* loading *) false (* console *) []
    (* alerts *) [] (* navigation *) [] (* calls *) [CallGetTransactions].

(** A working store holding [TX1] and [TX2]. *)
Definition workingStore : MemoryStore :=
  {| records := [TX1; TX2]; readable := true; writable := true |}.

(** The screen after its first load from the working store. *)
Definition loadedScreen : @World memoryStorage :=
  exec loadTransactions (@initialWorld memoryStorage workingStore).

(** The working store once the receipt of [TX1] is confirmed. *)
Definition confirmedStore : MemoryStore :=
  {| records := [updatedTransaction TX1; TX2];
     readable := true; writable := true |}.

(** Receipt prompts are only ever open for unconfirmed transactions. *)
Definition promptsArePending `{StorageService} (w : World) : Prop :=
  forall a b tx,
    In a (alerts w) -> In b (buttons a) -> onPress b = OnConfirmPress tx ->
    has_good_receipt tx = false.

(** ** Vocabulary of the further properties *)

(** The elements of a list in the order of their first occurrence. *)
Fixpoint firstOccurrences (l : list string) : list string :=
  match l with
  | [] => []
  | k :: l' =>
      k :: filter (fun k' => negb (String.eqb k' k)) (firstOccurrences l')
  end.

(** The sections and the cards of a screen, top to bottom. *)
Definition screenSections (s : Screen) : list DateSection :=
  match s with
  | LoadingIndicator => []
  | TransactionList sections => sections
  end.

Definition screenCards (s : Screen) : list Card :=
  flat_map section_cards (screenSections s).

(** ** Further sample data *)

(** A transaction whose date string is no date. *)
Definition TX3 : Transaction := pendingTransaction "TX3" "garbage" 1000.

(** Modelled from the spec: a store that upserts on save and returns its
    records on read, with a passing fault: its reads reject while exactly
    one save has been made. *)
Record FlakyStore : Type := {
  flaky_records : list Transaction;
  saves : nat
}.

Definition flakyStorage : StorageService :=
  {| Store := FlakyStore;
     getTransactions := fun s =>
       if Nat.eqb (saves s) 1 then inl "storage cannot be read"
       else inr (flaky_records s);
     saveTransaction := fun u s =>
       inr {| flaky_records := upsert u (flaky_records s);
              saves := S (saves s) |} |}.

(** The screen over the flaky store: mounted, then the receipt of [TX1]
    confirmed; the save went through and the re-fetch was rejected, so the
    screen still lists [TX1] as pending. *)
Definition flakyMounted : @World flakyStorage :=
  exec loadTransactions
    (@initialWorld flakyStorage {| flaky_records := [TX1; TX2]; saves := 0 |}).

Definition flakyPromptedTX1 : @World flakyStorage :=
  exec (invoke keysAsText (OnReceiptConfirm TX1)) flakyMounted.

Definition flakyStale : @World flakyStorage :=
  exec (invoke keysAsText (OnConfirmPress TX1)) flakyPromptedTX1.

(** From there, the receipt of [TX2] is confirmed. *)
Definition flakyPromptedTX2 : @World flakyStorage :=
  exec (invoke keysAsText (OnReceiptConfirm TX2)) flakyStale.

Definition flakyConfirmedTX2 : @World flakyStorage :=
  exec (invoke keysAsText (OnConfirmPress TX2)) flakyPromptedTX2.

(** * Properties *)

(** ** Objects as maps *)

Module ObjFacts.
Section ObjFacts.
Context {V : Type}.
Implicit Types (o : Obj.obj V) (k : string) (v : V).

Lemma get_set_same o k v : Obj.get k (Obj.set k v o) = Some v.
Proof.
  induction o as [|[k' v'] o IH]; simpl.
  - now rewrite String.eqb_refl.
  - destruct (String.eqb k' k) eqn:E; simpl; now rewrite E.
Qed.

Lemma get_set_other o k k' v :
  k <> k' -> Obj.get k' (Obj.set k v o) = Obj.get k' o.
Proof.
  intros Hne. induction o as [|[k0 v0] o IH]; simpl.
  - destruct (String.eqb_spec k k'); [contradiction | reflexivity].
  - destruct (String.eqb_spec k0 k) as [->|Hk]; simpl.
    + destruct (String.eqb_spec k k'); [contradiction | reflexivity].
    + now rewrite IH.
Qed.

Lemma set_absent o k v : Obj.get k o = None -> Obj.set k v o = (o ++ [(k, v)])%list.
Proof.
  induction o as [|[k' v'] o IH]; simpl; intros Hget.
  - reflexivity.
  - destruct (String.eqb k' k); [discriminate | now rewrite IH].
Qed.

Lemma keys_set_present o k v g :
  Obj.get k o = Some g -> Obj.keys (Obj.set k v o) = Obj.keys o.
Proof.
  induction o as [|[k' v'] o IH]; simpl; intros Hget.
  - discriminate.
  - destruct (String.eqb k' k); simpl; [reflexivity | now rewrite IH].
Qed.

Lemma get_None_keys o k : Obj.get k o = None <-> ~ In k (Obj.keys o).
Proof.
  induction o as [|[k' v'] o IH]; simpl.
  - tauto.
  - destruct (String.eqb_spec k' k) as [->|Hk].
    + split; [discriminate | intros Hn; exfalso; apply Hn; now left].
    + rewrite IH. tauto.
Qed.

Lemma get_In o k g : Obj.get k o = Some g -> In (k, g) o.
Proof.
  induction o as [|[k' v'] o IH]; simpl; intros Hget.
  - discriminate.
  - destruct (String.eqb_spec k' k) as [->|Hk].
    + injection Hget as ->. now left.
    + right. now apply IH.
Qed.

Lemma In_get o k g : NoDup (Obj.keys o) -> In (k, g) o -> Obj.get k o = Some g.
Proof.
  induction o as [|[k' v'] o IH]; simpl; intros Hnd Hin.
  - contradiction.
  - inversion Hnd as [|? ? Hnotin Hnd']; subst.
    destruct Hin as [Heq|Hin].
    + injection Heq as -> ->. now rewrite String.eqb_refl.
    + destruct (String.eqb_spec k' k) as [->|Hk].
      * exfalso. apply Hnotin. change (In (fst (k, g)) (map fst o)).
        now apply in_map.
      * now apply IH.
Qed.

Lemma set_last o k v v' :
  Obj.get k o = None ->
  Obj.set k v (o ++ [(k, v')])%list = (o ++ [(k, v)])%list.
Proof.
  induction o as [|[k0 v0] o IH]; simpl; intros Hget.
  - now rewrite String.eqb_refl.
  - destruct (String.eqb k0 k); [discriminate | now rewrite IH].
Qed.

End ObjFacts.
End ObjFacts.

(** ** Grouping *)

Section GroupingFacts.
Variable toLocaleDateString_enCA : string -> string.

Lemma groupStep_unfold o x :
  groupStep toLocaleDateString_enCA o x =
  match Obj.get (toLocaleDateString_enCA (date x)) o with
  | Some g => Obj.set (toLocaleDateString_enCA (date x)) (g ++ [x])%list o
  | None => (o ++ [(toLocaleDateString_enCA (date x), [x])])%list
  end.
Proof.
  unfold groupStep.
  destruct (Obj.get (toLocaleDateString_enCA (date x)) o) as [g|] eqn:Hget.
  - now rewrite Hget.
  - rewrite ObjFacts.get_set_same.
    rewrite (ObjFacts.set_absent o _ _ Hget).
    now apply ObjFacts.set_last.
Qed.

Lemma groupStep_get_same o x :
  Obj.get (toLocaleDateString_enCA (date x))
          (groupStep toLocaleDateString_enCA o x)
  = Some (groupOf (toLocaleDateString_enCA (date x)) o ++ [x])%list.
Proof.
  rewrite groupStep_unfold. unfold groupOf.
  destruct (Obj.get (toLocaleDateString_enCA (date x)) o) as [g|] eqn:Hget.
  - apply ObjFacts.get_set_same.
  - rewrite <- (ObjFacts.set_absent o _ _ Hget). apply ObjFacts.get_set_same.
Qed.

Lemma groupStep_get_other o x k :
  toLocaleDateString_enCA (date x) <> k ->
  Obj.get k (groupStep toLocaleDateString_enCA o x) = Obj.get k o.
Proof.
  intros Hne. rewrite groupStep_unfold.
  destruct (Obj.get (toLocaleDateString_enCA (date x)) o) as [g|] eqn:Hget.
  - now apply ObjFacts.get_set_other.
  - rewrite <- (ObjFacts.set_absent o _ _ Hget).
    now apply ObjFacts.get_set_other.
Qed.

Lemma groupStep_keys_NoDup o x :
  NoDup (Obj.keys o) -> NoDup (Obj.keys (groupStep toLocaleDateString_enCA o x)).
Proof.
  intros Hnd. rewrite groupStep_unfold.
  destruct (Obj.get (toLocaleDateString_enCA (date x)) o) as [g|] eqn:Hget.
  - now rewrite (ObjFacts.keys_set_present o _ _ g Hget).
  - unfold Obj.keys. rewrite map_app. simpl.
    apply NoDup_app; [assumption | repeat constructor; intros [] | ].
    intros k Hin [<-|[]]. revert Hin. now apply ObjFacts.get_None_keys.
Qed.

Lemma set_present_concat (o : Obj.obj (list Transaction)) k g x :
  Obj.get k o = Some g ->
  Permutation (List.concat (Obj.values (Obj.set k (g ++ [x])%list o)))
              (x :: List.concat (Obj.values o)).
Proof.
  induction o as [|[k' g'] o IH]; simpl; intros Hget.
  - discriminate.
  - destruct (String.eqb k' k); simpl.
    + injection Hget as ->. rewrite <- app_assoc. simpl.
      symmetry. apply Permutation_middle.
    + specialize (IH Hget).
      transitivity (g' ++ x :: List.concat (Obj.values o))%list.
      * now apply Permutation_app_head.
      * symmetry. apply Permutation_middle.
Qed.

Lemma groupStep_concat o x :
  Permutation (List.concat (Obj.values (groupStep toLocaleDateString_enCA o x)))
              (x :: List.concat (Obj.values o)).
Proof.
  rewrite groupStep_unfold.
  destruct (Obj.get (toLocaleDateString_enCA (date x)) o) as [g|] eqn:Hget.
  - now apply set_present_concat.
  - unfold Obj.values. rewrite map_app, concat_app. simpl.
    symmetry. apply Permutation_cons_append.
Qed.

Lemma groupedTransactions_snoc l x :
  groupedTransactions toLocaleDateString_enCA (l ++ [x])
  = groupStep toLocaleDateString_enCA
      (groupedTransactions toLocaleDateString_enCA l) x.
Proof. unfold groupedTransactions. now rewrite fold_left_app. Qed.

Lemma groupedTransactions_keys_NoDup l :
  NoDup (Obj.keys (groupedTransactions toLocaleDateString_enCA l)).
Proof.
  induction l as [|x l IH] using rev_ind.
  - constructor.
  - rewrite groupedTransactions_snoc. now apply groupStep_keys_NoDup.
Qed.

Lemma groupedTransactions_concat l :
  Permutation
    (List.concat (Obj.values (groupedTransactions toLocaleDateString_enCA l))) l.
Proof.
  induction l as [|x l IH] using rev_ind.
  - constructor.
  - rewrite groupedTransactions_snoc, groupStep_concat.
    rewrite <- Permutation_cons_append. now constructor.
Qed.

(** The group under a key is the sub-list of the transactions with that
    key; keys without transactions have no group. *)
Lemma groupedTransactions_get l k :
  Obj.get k (groupedTransactions toLocaleDateString_enCA l)
  = match filter (fun x => String.eqb (toLocaleDateString_enCA (date x)) k) l with
    | [] => None
    | g => Some g
    end.
Proof.
  induction l as [|x l IH] using rev_ind.
  - reflexivity.
  - rewrite groupedTransactions_snoc, filter_app. simpl.
    destruct (String.eqb_spec (toLocaleDateString_enCA (date x)) k) as [<-|Hne].
    + rewrite groupStep_get_same. unfold groupOf. rewrite IH.
      destruct (filter _ l); reflexivity.
    + rewrite groupStep_get_other by assumption.
      now rewrite IH, app_nil_r.
Qed.

Lemma groupedTransactions_In l k g :
  In (k, g) (groupedTransactions toLocaleDateString_enCA l) ->
  g = filter (fun x => String.eqb (toLocaleDateString_enCA (date x)) k) l
  /\ g <> [].
Proof.
  intros Hin.
  apply ObjFacts.In_get in Hin; [|apply groupedTransactions_keys_NoDup].
  rewrite groupedTransactions_get in Hin.
  destruct (filter _ l) eqn:E; [discriminate|].
  injection Hin as <-. split; [reflexivity | discriminate].
Qed.

Lemma groupedTransactions_member l x :
  In x l ->
  exists g, In (toLocaleDateString_enCA (date x), g)
               (groupedTransactions toLocaleDateString_enCA l)
            /\ In x g.
Proof.
  intros Hin.
  pose proof (groupedTransactions_get l (toLocaleDateString_enCA (date x))) as Hget.
  assert (Hx : In x (filter (fun y => String.eqb (toLocaleDateString_enCA (date y))
                                        (toLocaleDateString_enCA (date x))) l)).
  { apply filter_In. split; [assumption | apply String.eqb_refl]. }
  destruct (filter _ l) as [|y g] eqn:E; [contradiction|].
  exists (y :: g). split; [now apply ObjFacts.get_In | assumption].
Qed.

End GroupingFacts.

(** C1.  Grouping partitions the transactions held in local state: the date
    keys are pairwise distinct, the groups taken together hold exactly the
    transactions of the list (each as often as the list does), every
    transaction is in the group under the string of its local calendar date,
    and a group holds no transaction with another date key. *)
Theorem grouping_partitions_by_local_date
    (toLocaleDateString_enCA : string -> string) (txs : list Transaction) :
  NoDup (Obj.keys (groupedTransactions toLocaleDateString_enCA txs)) /\
  Permutation
    (List.concat (Obj.values (groupedTransactions toLocaleDateString_enCA txs)))
    txs /\
  (forall x, In x txs ->
     exists g, In (toLocaleDateString_enCA (date x), g)
                  (groupedTransactions toLocaleDateString_enCA txs)
               /\ In x g) /\
  (forall k g x,
     In (k, g) (groupedTransactions toLocaleDateString_enCA txs) ->
     In x g -> In x txs /\ k = toLocaleDateString_enCA (date x)).
Proof.
  split; [apply groupedTransactions_keys_NoDup|].
  split; [apply groupedTransactions_concat|].
  split; [intros x; apply groupedTransactions_member|].
  intros k g x Hin Hx.
  apply groupedTransactions_In in Hin. destruct Hin as [-> _].
  apply filter_In in Hx. destruct Hx as [Hx Hk].
  split; [assumption|]. symmetry. now apply String.eqb_eq.
Qed.

(** C10.  Grouping is order-stable: the group under a date key is the
    sub-list of the fetched transactions with that key, in the order in
    which they occur in the fetched list. *)
Theorem grouping_is_order_stable
    (toLocaleDateString_enCA : string -> string) (txs : list Transaction)
    (k : string) :
  groupOf k (groupedTransactions toLocaleDateString_enCA txs)
  = filter (fun x => String.eqb (toLocaleDateString_enCA (date x)) k) txs.
Proof.
  unfold groupOf. rewrite groupedTransactions_get.
  now destruct (filter _ txs).
Qed.

(** ** Sorting *)

Section SortingFacts.
Variable getTime : string -> option Z.

Lemma insertSorted_Permutation cmp x l :
  Permutation (insertSorted cmp x l) (x :: l).
Proof.
  induction l as [|y l IH]; simpl.
  - reflexivity.
  - destruct (sortCompare cmp y x <=? 0).
    + rewrite IH. apply perm_swap.
    + reflexivity.
Qed.

Lemma sort_Permutation cmp l : Permutation (sort cmp l) l.
Proof.
  unfold sort.
  assert (Hgen : forall acc,
    Permutation (fold_left (fun acc x => insertSorted cmp x acc) l acc)
                (acc ++ l)).
  { induction l as [|x l IH]; intros acc; simpl.
    - now rewrite app_nil_r.
    - rewrite IH, insertSorted_Permutation. apply Permutation_middle. }
  apply (Hgen []).
Qed.

Lemma sortCompare_dates a b :
  midnight getTime a <> None -> midnight getTime b <> None ->
  sortCompare (compareDates getTime) a b
  = midnightOr0 getTime b - midnightOr0 getTime a.
Proof.
  unfold sortCompare, compareDates, midnightOr0, midnight. intros Ha Hb.
  destruct (getTime (b ++ "T00:00:00")); [|contradiction].
  destruct (getTime (a ++ "T00:00:00")); [reflexivity | contradiction].
Qed.

Lemma insertSorted_sorted x l :
  midnight getTime x <> None ->
  Forall (fun k => midnight getTime k <> None) l ->
  StronglySorted (fun a b => midnightOr0 getTime b <= midnightOr0 getTime a) l ->
  StronglySorted (fun a b => midnightOr0 getTime b <= midnightOr0 getTime a)
                 (insertSorted (compareDates getTime) x l).
Proof.
  intros Hx Hvalid Hsorted.
  induction Hsorted as [|y l Hsorted IH Hy]; simpl.
  - repeat constructor.
  - inversion Hvalid as [|? ? Hvy Hvl]; subst.
    rewrite sortCompare_dates by assumption.
    destruct (Z.leb_spec (midnightOr0 getTime x - midnightOr0 getTime y) 0).
    + constructor; [now apply IH|].
      apply (Permutation_Forall (x := x :: l)).
      * symmetry. apply insertSorted_Permutation.
      * constructor; [lia | assumption].
    + constructor; [now constructor|].
      constructor; [lia|].
      eapply Forall_impl; [|exact Hy]. simpl. intros; lia.
Qed.

Lemma sort_sorted l :
  Forall (fun k => midnight getTime k <> None) l ->
  StronglySorted (fun a b => midnightOr0 getTime b <= midnightOr0 getTime a)
                 (sort (compareDates getTime) l).
Proof.
  unfold sort. intros Hvalid.
  assert (Hgen : forall acc,
    Forall (fun k => midnight getTime k <> None) acc ->
    StronglySorted
      (fun a b => midnightOr0 getTime b <= midnightOr0 getTime a) acc ->
    StronglySorted
      (fun a b => midnightOr0 getTime b <= midnightOr0 getTime a)
      (fold_left (fun acc x => insertSorted (compareDates getTime) x acc) l acc)).
  { induction Hvalid as [|x l Hx Hl IH]; intros acc Hacc Hsorted; simpl.
    - assumption.
    - apply IH.
      + apply (Permutation_Forall (x := x :: acc)).
        * symmetry. apply insertSorted_Permutation.
        * now constructor.
      + now apply insertSorted_sorted. }
  apply Hgen; constructor.
Qed.

Lemma sorted_distinct_days l :
  Forall (fun k => midnight getTime k <> None) l ->
  NoDup l ->
  (forall a b, In a l -> In b l ->
     midnight getTime a = midnight getTime b -> a = b) ->
  StronglySorted (fun a b => midnightOr0 getTime b <= midnightOr0 getTime a) l ->
  StronglySorted (laterDay getTime) l.
Proof.
  intros Hvalid Hnd Hinj Hsorted.
  induction Hsorted as [|y l Hsorted IH Hy].
  - constructor.
  - inversion Hvalid as [|? ? Hvy Hvl]; subst.
    inversion Hnd as [|? ? Hnotin Hnd']; subst.
    constructor.
    + apply IH; try assumption.
      intros a b Ha Hb. apply Hinj; now right.
    + rewrite Forall_forall in *. intros z Hz.
      specialize (Hy z Hz). specialize (Hvl z Hz).
      assert (Hne : midnight getTime y <> midnight getTime z).
      { intros Heq. apply Hnotin.
        rewrite (Hinj y z); [assumption | now left | now right | assumption]. }
      unfold laterDay. unfold midnightOr0 in Hy.
      destruct (midnight getTime y) as [ty|]; [|contradiction].
      destruct (midnight getTime z) as [tz|]; [|contradiction].
      assert (ty <> tz) by congruence. lia.
Qed.

End SortingFacts.

Lemma groupedTransactions_key_origin toLocaleDateString_enCA txs k :
  In k (Obj.keys (groupedTransactions toLocaleDateString_enCA txs)) ->
  exists x, In x txs /\ toLocaleDateString_enCA (date x) = k.
Proof.
  unfold Obj.keys. rewrite in_map_iff. intros [[k' g] [Hk Hin]].
  simpl in Hk. subst k'.
  apply groupedTransactions_In in Hin. destruct Hin as [-> Hne].
  destruct (filter _ txs) as [|x g] eqn:E; [contradiction|].
  assert (Hx : In x (filter
    (fun y => String.eqb (toLocaleDateString_enCA (date y)) k) txs)).
  { rewrite E. now left. }
  apply filter_In in Hx. destruct Hx as [Hx Hk].
  exists x. split; [assumption | now apply String.eqb_eq].
Qed.

(** C2, as the code has it.  Where every transaction's date key denotes a
    day (its midnight is an instant) and different keys denote different
    days, the sorted keys are the group keys in strictly descending
    chronological order, and the sections of the screen follow that
    order. *)
Theorem sortedDates_strictly_descending
    (toLocaleDateString_enCA : string -> string)
    (getTime : string -> option Z) (txs : list Transaction) :
  (forall x, In x txs ->
     midnight getTime (toLocaleDateString_enCA (date x)) <> None) ->
  (forall x y, In x txs -> In y txs ->
     midnight getTime (toLocaleDateString_enCA (date x))
     = midnight getTime (toLocaleDateString_enCA (date y)) ->
     toLocaleDateString_enCA (date x) = toLocaleDateString_enCA (date y)) ->
  Permutation (sortedDates toLocaleDateString_enCA getTime txs)
              (Obj.keys (groupedTransactions toLocaleDateString_enCA txs)) /\
  StronglySorted (laterDay getTime)
                 (sortedDates toLocaleDateString_enCA getTime txs) /\
  sectionDates (render toLocaleDateString_enCA getTime txs false)
  = sortedDates toLocaleDateString_enCA getTime txs.
Proof.
  intros Hvalid Hinj.
  assert (Hperm : Permutation
            (sortedDates toLocaleDateString_enCA getTime txs)
            (Obj.keys (groupedTransactions toLocaleDateString_enCA txs)))
    by apply sort_Permutation.
  assert (Hkeys : Forall (fun k => midnight getTime k <> None)
            (Obj.keys (groupedTransactions toLocaleDateString_enCA txs))).
  { apply Forall_forall. intros k Hk.
    apply groupedTransactions_key_origin in Hk. destruct Hk as [x [Hx <-]].
    now apply Hvalid. }
  split; [exact Hperm|]. split.
  - apply sorted_distinct_days.
    + apply (Permutation_Forall (Permutation_sym Hperm) Hkeys).
    + apply (Permutation_NoDup (Permutation_sym Hperm)).
      apply groupedTransactions_keys_NoDup.
    + intros a b Ha Hb.
      apply (Permutation_in _ Hperm) in Ha, Hb.
      apply groupedTransactions_key_origin in Ha, Hb.
      destruct Ha as [x [Hx <-]]. destruct Hb as [y [Hy <-]].
      now apply Hinj.
    + now apply sort_sorted.
  - simpl. rewrite map_map. simpl. apply map_id.
Qed.

Lemma sortedDates_strictly_descending_witness :
  StronglySorted (laterDay UTCDate.getTime)
    (sortedDates UTCDate.toLocaleDateString_enCA UTCDate.getTime [TX1; TX2])
  /\ sectionDates
       (render UTCDate.toLocaleDateString_enCA UTCDate.getTime [TX1; TX2] false)
     = ["2024-01-02"; "2024-01-01"].
Proof.
  assert (Hvalid : forall x, In x [TX1; TX2] ->
            midnight UTCDate.getTime (UTCDate.toLocaleDateString_enCA (date x))
            <> None).
  { intros x [<-|[<-|[]]]; vm_compute; discriminate. }
  assert (Hinj : forall x y, In x [TX1; TX2] -> In y [TX1; TX2] ->
            midnight UTCDate.getTime (UTCDate.toLocaleDateString_enCA (date x))
            = midnight UTCDate.getTime (UTCDate.toLocaleDateString_enCA (date y)) ->
            UTCDate.toLocaleDateString_enCA (date x)
            = UTCDate.toLocaleDateString_enCA (date y)).
  { intros x y [<-|[<-|[]]] [<-|[<-|[]]]; vm_compute; congruence. }
  destruct (sortedDates_strictly_descending
              UTCDate.toLocaleDateString_enCA UTCDate.getTime [TX1; TX2]
              Hvalid Hinj) as (_ & Hsorted & _).
  split; [exact Hsorted | reflexivity].
Defined.

Lemma StronglySorted_comparable {A} (R : A -> A -> Prop) l a b :
  StronglySorted R l -> In a l -> In b l -> a <> b -> R a b \/ R b a.
Proof.
  induction 1 as [|x l Hs IH Hx]; intros Ha Hb Hne.
  - destruct Ha.
  - rewrite Forall_forall in Hx.
    destruct Ha as [->|Ha], Hb as [->|Hb].
    + contradiction.
    + left. now apply Hx.
    + right. now apply Hx.
    + now apply IH.
Qed.

(** C2 for every list does not hold: a transaction whose date string is no
    date gets the key "Invalid Date", whose midnight is [NaN]; the keys
    of such a list have no strictly descending arrangement at all, so the
    sorted keys are not in one, whichever way the sort leaves them. *)
Lemma unparseable_date_breaks_descending_order :
  UTCDate.toLocaleDateString_enCA (date TX3) = "Invalid Date" /\
  midnight UTCDate.getTime "Invalid Date" = None /\
  Obj.keys (groupedTransactions UTCDate.toLocaleDateString_enCA [TX1; TX3; TX2])
  = ["2024-01-01"; "Invalid Date"; "2024-01-02"] /\
  ~ StronglySorted (laterDay UTCDate.getTime)
      (sortedDates UTCDate.toLocaleDateString_enCA UTCDate.getTime
         [TX1; TX3; TX2]) /\
  (forall l,
     Permutation l ["2024-01-01"; "Invalid Date"; "2024-01-02"] ->
     ~ StronglySorted (laterDay UTCDate.getTime) l).
Proof.
  assert (Hnone : forall l,
    Permutation l ["2024-01-01"; "Invalid Date"; "2024-01-02"] ->
    ~ StronglySorted (laterDay UTCDate.getTime) l).
  { intros l Hperm Hsorted.
    destruct (StronglySorted_comparable _ l "Invalid Date" "2024-01-01" Hsorted)
      as [Hlater|Hlater].
    - apply (Permutation_in _ (Permutation_sym Hperm)). right. now left.
    - apply (Permutation_in _ (Permutation_sym Hperm)). now left.
    - discriminate.
    - exact Hlater.
    - exact Hlater. }
  split; [reflexivity|]. split; [reflexivity|]. split; [reflexivity|].
  split; [|exact Hnone].
  apply Hnone.
  apply (sort_Permutation (compareDates UTCDate.getTime)
           ["2024-01-01"; "Invalid Date"; "2024-01-02"]).
Qed.

(** ** The handlers *)

Section HandlerFacts.
Context `{StorageService}.
Variable t : string -> list (string * string) -> string.

Lemma loadTransactions_rejected w e :
  getTransactions (store w) = inl e ->
  loadTransactions w =
  (inr tt,
   {| store := store w; transactions := transactions w; loading := false;
      console := (console w ++ [("Error loading transactions:", e)])%list;
      alerts := alerts w; navigation := navigation w;
      calls := (calls w ++ [CallGetTransactions])%list |}).
Proof.
  intros Hget.
  unfold loadTransactions, try_finally, try_catch, bind,
    await_getTransactions, setTransactions, setLoading, console_error.
  simpl. now rewrite Hget.
Qed.

Lemma loadTransactions_resolved w l :
  getTransactions (store w) = inr l ->
  loadTransactions w =
  (inr tt,
   {| store := store w; transactions := l; loading := false;
      console := console w; alerts := alerts w; navigation := navigation w;
      calls := (calls w ++ [CallGetTransactions])%list |}).
Proof.
  intros Hget.
  unfold loadTransactions, try_finally, try_catch, bind,
    await_getTransactions, setTransactions, setLoading, console_error.
  simpl. now rewrite Hget.
Qed.

Lemma confirmOnPress_rejected tx w e :
  saveTransaction (updatedTransaction tx) (store w) = inl e ->
  confirmOnPress t tx w =
  (inr tt,
   {| store := store w; transactions := transactions w; loading := loading w;
      console := (console w ++ [("Error confirming transaction:", e)])%list;
      alerts :=
        (alerts w ++
         [{| title := t "error" []; message := t "receiptConfirmError" [];
             buttons := [] |}])%list;
      navigation := navigation w;
      calls := (calls w ++ [CallSaveTransaction (updatedTransaction tx)])%list |}).
Proof.
  intros Hsave.
  unfold confirmOnPress, try_catch, bind, sleep, ret, await_saveTransaction,
    console_error, Alert_alert.
  simpl. now rewrite Hsave.
Qed.

Lemma confirmOnPress_resolved tx w s' :
  saveTransaction (updatedTransaction tx) (store w) = inr s' ->
  confirmOnPress t tx w =
  (inr tt,
   {| store := s';
      transactions :=
        match getTransactions s' with
        | inr l => l
        | inl _ => transactions w
        end;
      loading := false;
      console :=
        match getTransactions s' with
        | inr _ => console w
        | inl e => (console w ++ [("Error loading transactions:", e)])%list
        end;
      alerts :=
        (alerts w ++
         [{| title := t "confirmReceipt" []; message := t "receiptConfirmed" [];
             buttons := [] |}])%list;
      navigation := navigation w;
      calls :=
        (calls w ++ [CallSaveTransaction (updatedTransaction tx);
                     CallGetTransactions])%list |}).
Proof.
  intros Hsave.
  unfold confirmOnPress, try_catch, bind, sleep, ret, await_saveTransaction.
  simpl. rewrite Hsave.
  destruct (getTransactions s') as [e|l] eqn:Hget.
  - rewrite (loadTransactions_rejected _ e) by exact Hget.
    unfold Alert_alert. simpl. now rewrite <- app_assoc.
  - rewrite (loadTransactions_resolved _ l) by exact Hget.
    unfold Alert_alert. simpl. now rewrite <- app_assoc.
Qed.

End HandlerFacts.

(** C4.  The receipt handler does nothing for a transaction whose receipt is
    already confirmed: it returns with the world as it was, so no prompt is
    shown, no storage call is issued, and local state and store are the
    same. *)
Theorem handleReceiptConfirm_already_confirmed `{StorageService}
    (t : string -> list (string * string) -> string)
    (tx : Transaction) (w : World) :
  has_good_receipt tx = true ->
  handleReceiptConfirm t tx w = (inr tt, w) /\
  alerts (exec (handleReceiptConfirm t tx) w) = alerts w /\
  calls (exec (handleReceiptConfirm t tx) w) = calls w /\
  transactions (exec (handleReceiptConfirm t tx) w) = transactions w /\
  store (exec (handleReceiptConfirm t tx) w) = store w.
Proof.
  intros Hflag. unfold exec, handleReceiptConfirm. rewrite Hflag.
  repeat split.
Qed.

Lemma handleReceiptConfirm_already_confirmed_witness :
  has_good_receipt (updatedTransaction TX1) = true /\
  exec (handleReceiptConfirm keysAsText (updatedTransaction TX1)) readOnlyScreen
  = readOnlyScreen.
Proof.
  split; [reflexivity|].
  unfold exec.
  destruct (handleReceiptConfirm_already_confirmed
              keysAsText (updatedTransaction TX1) readOnlyScreen eq_refl)
    as [-> _].
  reflexivity.
Defined.

(** C5, as the code has it.  When the storage read fails, the load routine
    logs the error, clears the loading indicator, shows no alert, and leaves
    the transaction list as it was: empty where nothing had been loaded
    before. *)
Theorem loadTransactions_read_failure `{StorageService}
    (w : World) (e : Error) :
  getTransactions (store w) = inl e ->
  console (exec loadTransactions w)
  = (console w ++ [("Error loading transactions:", e)])%list /\
  transactions (exec loadTransactions w) = transactions w /\
  (transactions w = [] -> transactions (exec loadTransactions w) = []) /\
  loading (exec loadTransactions w) = false /\
  alerts (exec loadTransactions w) = alerts w /\
  store (exec loadTransactions w) = store w.
Proof.
  intros Hget. unfold exec. rewrite (loadTransactions_rejected w e Hget).
  simpl. repeat split. auto.
Qed.

Lemma loadTransactions_read_failure_witness :
  getTransactions (store staleScreen) = inl "storage cannot be read" /\
  console (exec loadTransactions staleScreen)
  = [("Error loading transactions:", "storage cannot be read")] /\
  loading (exec loadTransactions staleScreen) = false.
Proof.
  destruct (loadTransactions_read_failure
              staleScreen "storage cannot be read" eq_refl)
    as (Hconsole & _ & _ & Hloading & _).
  split; [reflexivity|]. split; [exact Hconsole | exact Hloading].
Defined.

(** C5 with "the list is left empty" does not hold: a load that fails after
    an earlier one succeeded leaves the earlier list on the screen. *)
Lemma stale_list_survives_failed_reload :
  getTransactions (store staleScreen) = inl "storage cannot be read" /\
  transactions (exec loadTransactions staleScreen) = [TX1] /\
  transactions (exec loadTransactions staleScreen) <> [].
Proof.
  split; [reflexivity|]. split; [reflexivity | discriminate].
Qed.

(** C6.  When the save of the confirmation fails, the error is logged, the
    generic error alert is shown, and the transaction list of the screen
    (with the rest of its state and the store) is what it was before. *)
Theorem confirmOnPress_save_failure `{StorageService}
    (t : string -> list (string * string) -> string)
    (tx : Transaction) (w : World) (e : Error) :
  saveTransaction (updatedTransaction tx) (store w) = inl e ->
  console (exec (confirmOnPress t tx) w)
  = (console w ++ [("Error confirming transaction:", e)])%list /\
  alerts (exec (confirmOnPress t tx) w)
  = (alerts w ++
     [{| title := t "error" []; message := t "receiptConfirmError" [];
         buttons := [] |}])%list /\
  transactions (exec (confirmOnPress t tx) w) = transactions w /\
  loading (exec (confirmOnPress t tx) w) = loading w /\
  store (exec (confirmOnPress t tx) w) = store w.
Proof.
  intros Hsave. unfold exec. rewrite (confirmOnPress_rejected t tx w e Hsave).
  simpl. repeat split.
Qed.

Lemma confirmOnPress_save_failure_witness :
  saveTransaction (updatedTransaction TX1) (store readOnlyScreen)
  = inl "storage cannot be written" /\
  transactions (exec (confirmOnPress keysAsText TX1) readOnlyScreen)
  = [TX1; TX2] /\
  alerts (exec (confirmOnPress keysAsText TX1) readOnlyScreen)
  = [{| title := "error"; message := "receiptConfirmError"; buttons := [] |}].
Proof.
  destruct (confirmOnPress_save_failure
              keysAsText TX1 readOnlyScreen "storage cannot be written" eq_refl)
    as (_ & Halerts & Htxs & _).
  split; [reflexivity|]. split; [exact Htxs | exact Halerts].
Defined.

Lemma listed_transaction_has_card
    (toLocaleDateString_enCA : string -> string)
    (getTime : string -> option Z) (txs : list Transaction)
    (item : Transaction) :
  In item txs ->
  In (OnTransactionTap item)
     (screenCallbacks (render toLocaleDateString_enCA getTime txs false)).
Proof.
  intros Hin. simpl. apply in_flat_map.
  destruct (groupedTransactions_member toLocaleDateString_enCA txs item Hin)
    as [g [Hg Hitem]].
  exists (renderDateSection (groupedTransactions toLocaleDateString_enCA txs)
            (toLocaleDateString_enCA (date item))).
  split.
  - apply in_map.
    apply (Permutation_in _ (Permutation_sym (sort_Permutation _ _))).
    unfold Obj.keys.
    change (toLocaleDateString_enCA (date item))
      with (fst (toLocaleDateString_enCA (date item), g)).
    now apply in_map.
  - simpl.
    rewrite (ObjFacts.In_get _ _ _
               (groupedTransactions_keys_NoDup toLocaleDateString_enCA txs) Hg).
    apply in_flat_map. exists (renderTransaction item).
    split; [now apply in_map | now left].
Qed.

(** C7.  The card of a transaction carries the tap handler for that
    transaction, and the tap pushes the order-detail route with the
    transaction's identifier as the [transactionId] query parameter, and
    does nothing else; once loading is over, every transaction of the list
    has its card on the screen. *)
Theorem tap_pushes_order_detail `{StorageService}
    (toLocaleDateString_enCA : string -> string)
    (getTime : string -> option Z)
    (t : string -> list (string * string) -> string)
    (item : Transaction) (w : World) :
  card_onPress (renderTransaction item) = OnTransactionTap item /\
  invoke t (card_onPress (renderTransaction item)) w =
  (inr tt,
   {| store := store w; transactions := transactions w; loading := loading w;
      console := console w; alerts := alerts w;
      navigation :=
        (navigation w
         ++ [("/order-detail?transactionId=" ++ transaction_id item)%string])%list;
      calls := calls w |}) /\
  (In item (transactions w) -> loading w = false ->
   In (card_onPress (renderTransaction item))
      (offered toLocaleDateString_enCA getTime w)).
Proof.
  split; [reflexivity|]. split; [reflexivity|].
  intros Hin Hloading. unfold offered. apply in_or_app. left.
  rewrite Hloading. now apply listed_transaction_has_card.
Qed.

(** C9.  The record the confirmation writes to storage is the transaction
    with the receipt flag set and the total copied into the confirmed total;
    identifier, date, total, items and loan identifier are the
    transaction's, and it is the only record the confirmation saves. *)
Theorem confirmation_writes_only_receipt_fields `{StorageService}
    (t : string -> list (string * string) -> string)
    (tx : Transaction) (w : World) :
  (exists rest,
     calls (exec (confirmOnPress t tx) w)
     = (calls w ++ CallSaveTransaction (updatedTransaction tx) :: rest)%list
     /\ (rest = [] \/ rest = [CallGetTransactions])) /\
  transaction_id (updatedTransaction tx) = transaction_id tx /\
  date (updatedTransaction tx) = date tx /\
  total (updatedTransaction tx) = total tx /\
  items (updatedTransaction tx) = items tx /\
  loan_id (updatedTransaction tx) = loan_id tx /\
  has_good_receipt (updatedTransaction tx) = true /\
  good_receipt_total (updatedTransaction tx) = Some (total tx).
Proof.
  split; [|repeat split].
  unfold exec.
  destruct (saveTransaction (updatedTransaction tx) (store w)) as [e|s'] eqn:Hsave.
  - rewrite (confirmOnPress_rejected t tx w e Hsave). simpl.
    exists []. split; [reflexivity | now left].
  - rewrite (confirmOnPress_resolved t tx w s' Hsave). simpl.
    exists [CallGetTransactions]. split; [reflexivity | now right].
Qed.

(** ** The storage contract *)

Lemma findTransaction_upsert id u l :
  findTransaction id (upsert u l)
  = if String.eqb (transaction_id u) id then Some u else findTransaction id l.
Proof.
  induction l as [|x l IH]; simpl.
  - reflexivity.
  - destruct (String.eqb_spec (transaction_id x) (transaction_id u)) as [Heq|Hne];
      simpl.
    + rewrite Heq. now destruct (String.eqb (transaction_id u) id).
    + rewrite IH.
      destruct (String.eqb_spec (transaction_id x) id) as [Hx|Hx];
        [|reflexivity].
      destruct (String.eqb_spec (transaction_id u) id); [congruence | reflexivity].
Qed.

Lemma In_upsert_other x u l :
  transaction_id x <> transaction_id u ->
  In x (upsert u l) <-> In x l.
Proof.
  intros Hne. induction l as [|y l IH]; simpl.
  - split; [intros [<-|[]]; congruence | tauto].
  - destruct (String.eqb_spec (transaction_id y) (transaction_id u)) as [Heq|Hy];
      simpl.
    + split; intros [<-|Hin]; try (now right); congruence.
    + rewrite IH. tauto.
Qed.

Lemma memoryStorage_honoursContract :
  @honoursContract memoryStorage records.
Proof.
  split.
  - intros s l. simpl. destruct (readable s); [congruence | discriminate].
  - intros u s s'. simpl. destruct (writable s); [|discriminate].
    intros Heq. injection Heq as <-. reflexivity.
Qed.

Lemma findTransaction_In id l x : findTransaction id l = Some x -> In x l.
Proof.
  induction l as [|y l IH]; simpl; intros Hfind.
  - discriminate.
  - destruct (String.eqb (transaction_id y) id).
    + injection Hfind as ->. now left.
    + right. now apply IH.
Qed.

Lemma listed_transaction_card_on_screen
    (toLocaleDateString_enCA : string -> string)
    (getTime : string -> option Z) (txs : list Transaction)
    (item : Transaction) :
  In item txs ->
  In (renderTransaction item)
     (screenCards (render toLocaleDateString_enCA getTime txs false)).
Proof.
  intros Hin. unfold screenCards. simpl. apply in_flat_map.
  destruct (groupedTransactions_member toLocaleDateString_enCA txs item Hin)
    as [g [Hg Hitem]].
  exists (renderDateSection (groupedTransactions toLocaleDateString_enCA txs)
            (toLocaleDateString_enCA (date item))).
  split.
  - apply in_map.
    apply (Permutation_in _ (Permutation_sym (sort_Permutation _ _))).
    unfold Obj.keys.
    change (toLocaleDateString_enCA (date item))
      with (fst (toLocaleDateString_enCA (date item), g)).
    now apply in_map.
  - simpl.
    rewrite (ObjFacts.In_get _ _ _
               (groupedTransactions_keys_NoDup toLocaleDateString_enCA txs) Hg).
    now apply in_map.
Qed.

(** C3, as the code has it.  For a transaction whose receipt is
    unconfirmed, the handler shows the prompt with a cancel and a confirm
    button; once the user presses confirm and the save and the re-fetch
    succeed, the record stored under the transaction's identifier is the
    transaction with the receipt flag true and the confirmed total equal to
    its total, and every stored record with another identifier is as it
    was.  The screen is out of loading and lists what is stored: the card of
    the confirmed record is on it, without the pending-receipt button.  Where
    the list shown before was the stored one, the list shown after is that
    list with the one record upserted, so every other transaction shown is
    as it was. *)
Theorem confirmed_receipt_is_stored_and_shown `{StorageService}
    (recordsOf : Store -> list Transaction)
    (toLocaleDateString_enCA : string -> string)
    (getTime : string -> option Z)
    (t : string -> list (string * string) -> string)
    (tx : Transaction) (w : World) (s' : Store) (l : list Transaction) :
  honoursContract recordsOf ->
  has_good_receipt tx = false ->
  saveTransaction (updatedTransaction tx) (store w) = inr s' ->
  getTransactions s' = inr l ->
  exists prompt cancel confirm,
    alerts (exec (handleReceiptConfirm t tx) w) = (alerts w ++ [prompt])%list /\
    buttons prompt = [cancel; confirm] /\
    text confirm = t "confirm" [] /\
    let w' := exec (invoke t (onPress confirm))
                   (exec (handleReceiptConfirm t tx) w) in
    (* the record stored *)
    findTransaction (transaction_id tx) (recordsOf (store w'))
    = Some (updatedTransaction tx) /\
    has_good_receipt (updatedTransaction tx) = true /\
    good_receipt_total (updatedTransaction tx) = Some (total tx) /\
    (* the other records stored *)
    recordsOf (store w') = upsert (updatedTransaction tx) (recordsOf (store w)) /\
    (forall x, transaction_id x <> transaction_id tx ->
       (In x (recordsOf (store w')) <-> In x (recordsOf (store w)))) /\
    (forall id, id <> transaction_id tx ->
       findTransaction id (recordsOf (store w'))
       = findTransaction id (recordsOf (store w))) /\
    (* the record shown *)
    transactions w' = recordsOf (store w') /\
    loading w' = false /\
    findTransaction (transaction_id tx) (transactions w')
    = Some (updatedTransaction tx) /\
    In (renderTransaction (updatedTransaction tx))
       (screenCards
          (render toLocaleDateString_enCA getTime
             (transactions w') (loading w'))) /\
    card_receiptPending (renderTransaction (updatedTransaction tx)) = None /\
    (* the other records shown *)
    (transactions w = recordsOf (store w) ->
     transactions w' = upsert (updatedTransaction tx) (transactions w) /\
     (forall x, transaction_id x <> transaction_id tx ->
        (In x (transactions w') <-> In x (transactions w))) /\
     (forall id, id <> transaction_id tx ->
        findTransaction id (transactions w')
        = findTransaction id (transactions w))).
Proof.
  intros [Hread Hwrite] Hflag Hsave Hget.
  unfold handleReceiptConfirm. rewrite Hflag.
  eexists _, _, _. split; [reflexivity|]. split; [reflexivity|].
  split; [reflexivity|].
  match goal with
  | |- context [recordsOf (store ?W)] => remember W as w' eqn:Ew'
  end.
  assert (Hw' : store w' = s' /\ transactions w' = l /\ loading w' = false).
  { subst w'. unfold exec. simpl invoke.
    rewrite (confirmOnPress_resolved t tx _ s') by exact Hsave.
    simpl. rewrite Hget. repeat split. }
  destruct Hw' as (Hstore & Htxs & Hloading).
  pose proof (Hwrite _ _ _ Hsave) as Hs'.
  pose proof (Hread _ _ Hget) as Hl.
  rewrite Hl, Hs' in Htxs.
  rewrite Hstore, Hs', Htxs, Hloading.
  clear Ew' Hstore Htxs Hloading w'.
  assert (Hfind : findTransaction (transaction_id tx)
                    (upsert (updatedTransaction tx) (recordsOf (store w)))
                  = Some (updatedTransaction tx)).
  { rewrite findTransaction_upsert. simpl. now rewrite String.eqb_refl. }
  assert (Hother : forall id, id <> transaction_id tx ->
            findTransaction id
              (upsert (updatedTransaction tx) (recordsOf (store w)))
            = findTransaction id (recordsOf (store w))).
  { intros id Hid. rewrite findTransaction_upsert. simpl.
    destruct (String.eqb_spec (transaction_id tx) id);
      [congruence | reflexivity]. }
  split; [exact Hfind|]. split; [reflexivity|]. split; [reflexivity|].
  split; [reflexivity|].
  split; [intros x Hx; now apply In_upsert_other|].
  split; [exact Hother|]. split; [reflexivity|]. split; [reflexivity|].
  split; [exact Hfind|].
  split; [apply listed_transaction_card_on_screen;
          exact (findTransaction_In _ _ _ Hfind)|].
  split; [reflexivity|].
  intros Hsync. rewrite Hsync.
  split; [reflexivity|].
  split; [intros x Hx; now apply In_upsert_other|].
  exact Hother.
Qed.

Lemma confirmed_receipt_is_stored_and_shown_witness :
  has_good_receipt TX1 = false /\
  total TX1 = 50000 /\
  let w' := exec (confirmOnPress keysAsText TX1)
                 (exec (handleReceiptConfirm keysAsText TX1) loadedScreen) in
  findTransaction "TX1" (records (store w'))
  = Some (updatedTransaction TX1) /\
  findTransaction "TX1" (transactions w') = Some (updatedTransaction TX1) /\
  has_good_receipt (updatedTransaction TX1) = true /\
  good_receipt_total (updatedTransaction TX1) = Some 50000 /\
  loading w' = false /\
  transactions w' = [updatedTransaction TX1; TX2].
Proof.
  destruct (@confirmed_receipt_is_stored_and_shown memoryStorage
              records UTCDate.toLocaleDateString_enCA UTCDate.getTime
              keysAsText TX1 loadedScreen
              confirmedStore (records confirmedStore)
              memoryStorage_honoursContract eq_refl eq_refl eq_refl)
    as (prompt & cancel & confirm & Halerts & Hbuttons & _ & Hrest).
  simpl in Halerts. injection Halerts as <-.
  simpl in Hbuttons. injection Hbuttons as <- <-.
  destruct Hrest as (Hstored & Hflag & Htotal & _ & _ & _ & _ & Hloading
                     & Hshown & _ & _ & Hsync).
  destruct (Hsync eq_refl) as (Hlist & _).
  split; [reflexivity|]. split; [reflexivity|].
  split; [exact Hstored|]. split; [exact Hshown|].
  split; [exact Hflag|]. split; [exact Htotal|].
  split; [exact Hloading | exact Hlist].
Defined.

Lemma flakyStorage_honoursContract :
  @honoursContract flakyStorage flaky_records.
Proof.
  split.
  - intros s l. simpl. destruct (Nat.eqb (saves s) 1); [discriminate|].
    congruence.
  - intros u s s'. simpl. intros Heq. injection Heq as <-. reflexivity.
Qed.

(** C3 with "every other transaction in the list is unchanged" does not
    hold of the list on the screen.  Over a store whose re-fetch fails once,
    the receipt of [TX1] is confirmed and stored while the screen goes on
    listing [TX1] as pending; when the receipt of [TX2] is confirmed next,
    with save and re-fetch succeeding, the record shown for [TX1] changes
    too. *)
Lemma stale_list_changes_other_records :
  @honoursContract flakyStorage flaky_records /\
  reachable UTCDate.toLocaleDateString_enCA UTCDate.getTime keysAsText
    flakyPromptedTX2 /\
  In (OnConfirmPress TX2)
     (offered UTCDate.toLocaleDateString_enCA UTCDate.getTime flakyPromptedTX2) /\
  has_good_receipt TX2 = false /\
  transaction_id TX1 <> transaction_id TX2 /\
  (exists s',
     saveTransaction (updatedTransaction TX2) (store flakyPromptedTX2) = inr s' /\
     getTransactions s' = inr (transactions flakyConfirmedTX2)) /\
  findTransaction "TX1" (transactions flakyPromptedTX2) = Some TX1 /\
  findTransaction "TX1" (transactions flakyConfirmedTX2)
  = Some (updatedTransaction TX1) /\
  In TX1 (transactions flakyPromptedTX2) /\
  ~ In TX1 (transactions flakyConfirmedTX2).
Proof.
  assert (Hmounted : reachable UTCDate.toLocaleDateString_enCA UTCDate.getTime
                       keysAsText flakyMounted).
  { apply (reachable_step _ _ _
             (@initialWorld flakyStorage
                {| flaky_records := [TX1; TX2]; saves := 0 |}) Mounted).
    - apply reachable_initial.
    - apply step_mounted. }
  assert (Hprompted1 : reachable UTCDate.toLocaleDateString_enCA
                         UTCDate.getTime keysAsText flakyPromptedTX1).
  { apply (reachable_step _ _ _ flakyMounted (Pressed (OnReceiptConfirm TX1)));
      [exact Hmounted|].
    apply (step_pressed _ _ keysAsText flakyMounted (OnReceiptConfirm TX1)).
    vm_compute. repeat (first [left; reflexivity | right]). }
  assert (Hstale : reachable UTCDate.toLocaleDateString_enCA
                     UTCDate.getTime keysAsText flakyStale).
  { apply (reachable_step _ _ _ flakyPromptedTX1 (Pressed (OnConfirmPress TX1)));
      [exact Hprompted1|].
    apply (step_pressed _ _ keysAsText flakyPromptedTX1 (OnConfirmPress TX1)).
    vm_compute. repeat (first [left; reflexivity | right]). }
  assert (Hprompted2 : reachable UTCDate.toLocaleDateString_enCA
                         UTCDate.getTime keysAsText flakyPromptedTX2).
  { apply (reachable_step _ _ _ flakyStale (Pressed (OnReceiptConfirm TX2)));
      [exact Hstale|].
    apply (step_pressed _ _ keysAsText flakyStale (OnReceiptConfirm TX2)).
    vm_compute. repeat (first [left; reflexivity | right]). }
  split; [exact flakyStorage_honoursContract|].
  split; [exact Hprompted2|].
  split; [vm_compute; repeat (first [left; reflexivity | right])|].
  split; [reflexivity|]. split; [discriminate|].
  split; [eexists; split; reflexivity|].
  split; [reflexivity|]. split; [reflexivity|].
  split; [now left|].
  intros [Heq|[Heq|[]]]; discriminate.
Qed.

(** ** The behaviour of the mounted screen *)

Section BehaviourFacts.
Context `{StorageService}.
Variable toLocaleDateString_enCA : string -> string.
Variable getTime : string -> option Z.
Variable t : string -> list (string * string) -> string.

Lemma cardCallbacks_kinds item c :
  In c (cardCallbacks (renderTransaction item)) ->
  c = OnTransactionTap item \/ c = OnReceiptConfirm item.
Proof.
  unfold cardCallbacks, renderTransaction. simpl.
  destruct (has_good_receipt item); simpl; intuition.
Qed.

(** The rendered cards offer taps and receipt prompts, never the
    confirmation itself. *)
Lemma screenCallbacks_kinds txs loading c :
  In c (screenCallbacks
          (render toLocaleDateString_enCA getTime txs loading)) ->
  exists item, c = OnTransactionTap item \/ c = OnReceiptConfirm item.
Proof.
  unfold render. destruct loading; simpl; [intros []|].
  rewrite in_flat_map. intros [d [Hd Hc]].
  rewrite in_map_iff in Hd. destruct Hd as [k [<- _]].
  simpl in Hc. rewrite in_flat_map in Hc. destruct Hc as [card [Hcard Hc]].
  rewrite in_map_iff in Hcard. destruct Hcard as [item [<- _]].
  exists item. now apply cardCallbacks_kinds.
Qed.

Lemma offered_confirmation_is_pending w tx :
  promptsArePending w ->
  In (OnConfirmPress tx) (offered toLocaleDateString_enCA getTime w) ->
  has_good_receipt tx = false.
Proof.
  intros Hinv Hin. unfold offered in Hin. apply in_app_or in Hin.
  destruct Hin as [Hin|Hin].
  - apply screenCallbacks_kinds in Hin.
    destruct Hin as [item [Heq|Heq]]; discriminate.
  - rewrite in_flat_map in Hin. destruct Hin as [a [Ha Hb]].
    rewrite in_map_iff in Hb. destruct Hb as [b [Hpress Hb]].
    exact (Hinv a b tx Ha Hb Hpress).
Qed.

Lemma loadTransactions_alerts w :
  alerts (exec loadTransactions w) = alerts w.
Proof.
  unfold exec. destruct (getTransactions (store w)) as [e|l] eqn:Hget.
  - now rewrite (loadTransactions_rejected w e Hget).
  - now rewrite (loadTransactions_resolved w l Hget).
Qed.

Lemma promptsArePending_same_alerts w w' :
  alerts w' = alerts w -> promptsArePending w -> promptsArePending w'.
Proof. unfold promptsArePending. intros ->. auto. Qed.

Lemma promptsArePending_new_alert w w' a :
  alerts w' = (alerts w ++ [a])%list ->
  (forall b tx, In b (buttons a) -> onPress b = OnConfirmPress tx ->
     has_good_receipt tx = false) ->
  promptsArePending w -> promptsArePending w'.
Proof.
  unfold promptsArePending. intros -> Ha Hinv a' b tx Hin.
  apply in_app_or in Hin. destruct Hin as [Hin|[<-|[]]]; eauto.
Qed.

Lemma invoke_keeps_promptsArePending c w :
  promptsArePending w -> promptsArePending (exec (invoke t c) w).
Proof.
  intros Hinv. destruct c as [item|item|tx|]; simpl.
  - now apply (promptsArePending_same_alerts w).
  - unfold handleReceiptConfirm.
    destruct (has_good_receipt item) eqn:Hflag; [exact Hinv|].
    eapply promptsArePending_new_alert; [reflexivity| |exact Hinv].
    simpl. intros b tx [<-|[<-|[]]]; simpl; [discriminate|].
    intros Heq. injection Heq as <-. exact Hflag.
  - unfold exec.
    destruct (saveTransaction (updatedTransaction tx) (store w)) as [e|s']
      eqn:Hsave.
    + rewrite (confirmOnPress_rejected t tx w e Hsave).
      eapply promptsArePending_new_alert; [reflexivity| |exact Hinv].
      intros b tx' [].
    + rewrite (confirmOnPress_resolved t tx w s' Hsave).
      eapply promptsArePending_new_alert; [reflexivity| |exact Hinv].
      intros b tx' [].
  - exact Hinv.
Qed.

Lemma reachable_promptsArePending w :
  reachable toLocaleDateString_enCA getTime t w -> promptsArePending w.
Proof.
  induction 1 as [s|w e w' Hreach IH Hstep].
  - intros a b tx [].
  - destruct Hstep as [| |c Hc].
    + apply (promptsArePending_same_alerts w);
        [apply loadTransactions_alerts | exact IH].
    + apply (promptsArePending_same_alerts w);
        [apply loadTransactions_alerts | exact IH].
    + now apply invoke_keeps_promptsArePending.
Qed.

End BehaviourFacts.

(** C8.  In every step the mounted screen can take, the only record it
    saves is the one of an explicit confirmation: the step is the press of
    the confirm button of a prompt, the prompt's transaction was unconfirmed,
    and the record saved is that transaction with the flag set and its total
    copied into the confirmed total.  In every other step no save is issued
    and the store is the same; the list on the screen is either the same or
    what the store returns. *)
Theorem receipt_flag_set_only_by_confirmation `{StorageService}
    (toLocaleDateString_enCA : string -> string)
    (getTime : string -> option Z)
    (t : string -> list (string * string) -> string)
    (w : World) (e : Event) (w' : World) :
  reachable toLocaleDateString_enCA getTime t w ->
  step toLocaleDateString_enCA getTime t w e w' ->
  (exists issued,
     calls w' = (calls w ++ issued)%list /\
     forall u, In (CallSaveTransaction u) issued ->
       exists tx,
         e = Pressed (OnConfirmPress tx) /\
         has_good_receipt tx = false /\
         u = updatedTransaction tx /\
         has_good_receipt u = true /\
         good_receipt_total u = Some (total tx)) /\
  (store w' = store w \/
   exists tx,
     e = Pressed (OnConfirmPress tx) /\
     has_good_receipt tx = false /\
     saveTransaction (updatedTransaction tx) (store w) = inr (store w')) /\
  (transactions w' = transactions w \/
   getTransactions (store w') = inr (transactions w')).
Proof.
  intros Hreach Hstep.
  pose proof (reachable_promptsArePending _ _ _ _ Hreach) as Hinv.
  assert (Hload :
    (exists issued,
       calls (exec loadTransactions w) = (calls w ++ issued)%list /\
       forall u, In (CallSaveTransaction u) issued -> False) /\
    store (exec loadTransactions w) = store w /\
    (transactions (exec loadTransactions w) = transactions w \/
     getTransactions (store (exec loadTransactions w))
     = inr (transactions (exec loadTransactions w)))).
  { unfold exec. destruct (getTransactions (store w)) as [e0|l] eqn:Hget.
    - rewrite (loadTransactions_rejected w e0 Hget). simpl.
      split; [|split; [reflexivity | now left]].
      exists [CallGetTransactions]. split; [reflexivity|].
      intros u [Hu|[]]. discriminate.
    - rewrite (loadTransactions_resolved w l Hget). simpl.
      split; [|split; [reflexivity | now right]].
      exists [CallGetTransactions]. split; [reflexivity|].
      intros u [Hu|[]]. discriminate. }
  assert (Hquiet : forall w0 : World,
    calls w0 = calls w -> store w0 = store w ->
    transactions w0 = transactions w ->
    (exists issued,
       calls w0 = (calls w ++ issued)%list /\
       forall u, In (CallSaveTransaction u) issued ->
         exists tx,
           e = Pressed (OnConfirmPress tx) /\
           has_good_receipt tx = false /\
           u = updatedTransaction tx /\
           has_good_receipt u = true /\
           good_receipt_total u = Some (total tx)) /\
    (store w0 = store w \/
     exists tx,
       e = Pressed (OnConfirmPress tx) /\
       has_good_receipt tx = false /\
       saveTransaction (updatedTransaction tx) (store w) = inr (store w0)) /\
    (transactions w0 = transactions w \/
     getTransactions (store w0) = inr (transactions w0))).
  { intros w0 Hc Hs Ht. split; [|split; now left].
    exists []. split; [now rewrite app_nil_r | intros u []]. }
  destruct Hstep as [| |c Hc].
  - destruct Hload as ((issued & Hcalls & Hnone) & Hstore & Htxs).
    split; [|split; [now left | exact Htxs]].
    exists issued. split; [exact Hcalls|]. intros u Hu. now destruct (Hnone u Hu).
  - destruct Hload as ((issued & Hcalls & Hnone) & Hstore & Htxs).
    split; [|split; [now left | exact Htxs]].
    exists issued. split; [exact Hcalls|]. intros u Hu. now destruct (Hnone u Hu).
  - destruct c as [item|item|tx|].
    + now apply Hquiet.
    + simpl. unfold handleReceiptConfirm.
      destruct (has_good_receipt item); now apply Hquiet.
    + pose proof (offered_confirmation_is_pending _ _ w tx Hinv Hc) as Hflag.
      unfold exec. simpl invoke.
      destruct (saveTransaction (updatedTransaction tx) (store w)) as [e0|s']
        eqn:Hsave.
      * rewrite (confirmOnPress_rejected t tx w e0 Hsave). simpl.
        split; [|split; now left].
        exists [CallSaveTransaction (updatedTransaction tx)].
        split; [reflexivity|]. intros u [Hu|[]]. injection Hu as <-.
        exists tx. repeat split. exact Hflag.
      * rewrite (confirmOnPress_resolved t tx w s' Hsave). simpl.
        split; [|split].
        -- exists [CallSaveTransaction (updatedTransaction tx);
                   CallGetTransactions].
           split; [reflexivity|]. intros u [Hu|[Hu|[]]]; [|discriminate].
           injection Hu as <-. exists tx. repeat split. exact Hflag.
        -- right. exists tx. repeat split; assumption.
        -- destruct (getTransactions s'); [now left | now right].
    + now apply Hquiet.
Qed.

Lemma receipt_flag_set_only_by_confirmation_witness :
  let prompted := exec (handleReceiptConfirm keysAsText TX1) loadedScreen in
  let confirmed := exec (invoke keysAsText (OnConfirmPress TX1)) prompted in
  reachable UTCDate.toLocaleDateString_enCA UTCDate.getTime keysAsText prompted /\
  step UTCDate.toLocaleDateString_enCA UTCDate.getTime keysAsText
       prompted (Pressed (OnConfirmPress TX1)) confirmed /\
  store confirmed = confirmedStore /\
  (transactions confirmed = transactions prompted \/
   getTransactions (store confirmed) = inr (transactions confirmed)).
Proof.
  intros prompted confirmed.
  assert (Hloaded : reachable UTCDate.toLocaleDateString_enCA UTCDate.getTime
                      keysAsText loadedScreen).
  { apply (reachable_step _ _ _
             (@initialWorld memoryStorage workingStore) Mounted).
    - apply reachable_initial.
    - apply step_mounted. }
  assert (Hprompted : reachable UTCDate.toLocaleDateString_enCA UTCDate.getTime
                        keysAsText prompted).
  { apply (reachable_step _ _ _ loadedScreen (Pressed (OnReceiptConfirm TX1)));
      [exact Hloaded|].
    apply (step_pressed _ _ keysAsText loadedScreen (OnReceiptConfirm TX1)).
    vm_compute. do 3 right. left. reflexivity. }
  assert (Hstep : step UTCDate.toLocaleDateString_enCA UTCDate.getTime keysAsText
                    prompted (Pressed (OnConfirmPress TX1)) confirmed).
  { apply (step_pressed _ _ keysAsText prompted (OnConfirmPress TX1)).
    vm_compute. do 5 right. left. reflexivity. }
  destruct (receipt_flag_set_only_by_confirmation
              UTCDate.toLocaleDateString_enCA UTCDate.getTime keysAsText
              prompted (Pressed (OnConfirmPress TX1)) confirmed
              Hprompted Hstep) as (_ & _ & Hlist).
  split; [exact Hprompted|]. split; [exact Hstep|].
  split; [reflexivity | exact Hlist].
Defined.

(** * Further properties of the screen *)

(** ** Grouping and sorting, for any [Date] *)

Lemma firstOccurrences_In l k : In k (firstOccurrences l) <-> In k l.
Proof.
  induction l as [|a l IH]; simpl; [tauto|].
  rewrite filter_In, IH.
  destruct (String.eqb_spec k a) as [->|Hne]; simpl.
  - split; [intros [?|[? ?]]; [now left | discriminate] | now left].
  - split; [intros [?|[? _]]; auto | intros [?|?]; [now left | now right]].
Qed.

Lemma firstOccurrences_snoc l k :
  firstOccurrences (l ++ [k])
  = if in_dec string_dec k l then firstOccurrences l
    else (firstOccurrences l ++ [k])%list.
Proof.
  induction l as [|a l IH]; simpl.
  - reflexivity.
  - rewrite IH.
    destruct (string_dec a k) as [->|Hak].
    + destruct (in_dec string_dec k l) as [Hin|Hnin]; [reflexivity|].
      rewrite filter_app. simpl. rewrite String.eqb_refl. simpl.
      now rewrite app_nil_r.
    + destruct (in_dec string_dec k l) as [Hin|Hnin]; [reflexivity|].
      rewrite filter_app. simpl.
      destruct (String.eqb_spec k a); [congruence | reflexivity].
Qed.

Lemma groupedTransactions_keys_firstOccurrences
    (toLocaleDateString_enCA : string -> string) (txs : list Transaction) :
  Obj.keys (groupedTransactions toLocaleDateString_enCA txs)
  = firstOccurrences
      (map (fun x => toLocaleDateString_enCA (date x)) txs).
Proof.
  induction txs as [|x l IH] using rev_ind.
  - reflexivity.
  - rewrite groupedTransactions_snoc, groupStep_unfold, map_app. simpl.
    rewrite firstOccurrences_snoc.
    destruct (Obj.get (toLocaleDateString_enCA (date x))
                (groupedTransactions toLocaleDateString_enCA l))
      as [g|] eqn:Hget.
    + rewrite (ObjFacts.keys_set_present _ _ _ g Hget), IH.
      destruct (in_dec string_dec _ _) as [Hin|Hnin]; [reflexivity|].
      exfalso. apply Hnin. apply firstOccurrences_In. rewrite <- IH.
      destruct (ObjFacts.get_None_keys
                  (groupedTransactions toLocaleDateString_enCA l)
                  (toLocaleDateString_enCA (date x))) as [_ Hnone].
      destruct (in_dec string_dec (toLocaleDateString_enCA (date x))
                  (Obj.keys (groupedTransactions toLocaleDateString_enCA l)))
        as [Hk|Hk]; [exact Hk|].
      rewrite (Hnone Hk) in Hget. discriminate.
    + unfold Obj.keys at 1. rewrite map_app. simpl.
      fold (Obj.keys (groupedTransactions toLocaleDateString_enCA l)).
      rewrite IH.
      destruct (in_dec string_dec _ _) as [Hin|Hnin]; [|reflexivity].
      exfalso. apply firstOccurrences_In in Hin. rewrite <- IH in Hin.
      revert Hin. now apply ObjFacts.get_None_keys.
Qed.

(** X1.  The date keys of the grouping are the transactions' date keys,
    each once, in the order in which the list first reaches them. *)
Theorem grouping_keys_in_first_occurrence_order
    (toLocaleDateString_enCA : string -> string) (txs : list Transaction) :
  Obj.keys (groupedTransactions toLocaleDateString_enCA txs)
  = firstOccurrences
      (map (fun x => toLocaleDateString_enCA (date x)) txs)
  /\ NoDup (firstOccurrences
             (map (fun x => toLocaleDateString_enCA (date x)) txs)).
Proof.
  split; [apply groupedTransactions_keys_firstOccurrences|].
  rewrite <- groupedTransactions_keys_firstOccurrences.
  apply groupedTransactions_keys_NoDup.
Qed.

(** X2.  No group is empty, and there are no groups exactly when there are
    no transactions. *)
Theorem grouping_has_no_empty_group
    (toLocaleDateString_enCA : string -> string) (txs : list Transaction) :
  (forall k g, In (k, g) (groupedTransactions toLocaleDateString_enCA txs) ->
     g <> []) /\
  (groupedTransactions toLocaleDateString_enCA txs = [] <-> txs = []) /\
  (List.length (groupedTransactions toLocaleDateString_enCA txs) <= List.length txs)%nat.
Proof.
  split; [|split].
  - intros k g Hin. now apply groupedTransactions_In in Hin.
  - split; [|now intros ->].
    intros Hnil. destruct txs as [|x l]; [reflexivity|]. exfalso.
    destruct (groupedTransactions_member toLocaleDateString_enCA (x :: l) x)
      as [g [Hg _]]; [now left|].
    rewrite Hnil in Hg. contradiction.
  - replace (List.length (groupedTransactions toLocaleDateString_enCA txs))
      with (List.length (Obj.keys (groupedTransactions toLocaleDateString_enCA txs)))
      by apply length_map.
    replace (List.length txs)
      with (List.length (map (fun x => toLocaleDateString_enCA (date x)) txs))
      by apply length_map.
    apply NoDup_incl_length; [apply groupedTransactions_keys_NoDup|].
    intros k Hk. apply groupedTransactions_key_origin in Hk.
    destruct Hk as [x [Hx <-]].
    now apply (in_map (fun x => toLocaleDateString_enCA (date x))).
Qed.

(** X3.  Whatever [Date] makes of the strings, the sorted keys are exactly
    the date keys of the transactions, each once. *)
Theorem sortedDates_are_the_date_keys
    (toLocaleDateString_enCA : string -> string)
    (getTime : string -> option Z) (txs : list Transaction) (k : string) :
  NoDup (sortedDates toLocaleDateString_enCA getTime txs) /\
  (In k (sortedDates toLocaleDateString_enCA getTime txs) <->
   exists x, In x txs /\ toLocaleDateString_enCA (date x) = k) /\
  List.length (sortedDates toLocaleDateString_enCA getTime txs)
  = List.length (groupedTransactions toLocaleDateString_enCA txs).
Proof.
  pose proof (sort_Permutation (compareDates getTime)
                (Obj.keys (groupedTransactions toLocaleDateString_enCA txs)))
    as Hperm.
  fold (sortedDates toLocaleDateString_enCA getTime txs) in Hperm.
  split; [|split].
  - apply (Permutation_NoDup (Permutation_sym Hperm)).
    apply groupedTransactions_keys_NoDup.
  - split.
    + intros Hin. apply (Permutation_in _ Hperm) in Hin.
      now apply groupedTransactions_key_origin in Hin.
    + intros [x [Hx <-]].
      apply (Permutation_in _ (Permutation_sym Hperm)).
      destruct (groupedTransactions_member toLocaleDateString_enCA txs x Hx)
        as [g [Hg _]].
      unfold Obj.keys.
      change (toLocaleDateString_enCA (date x))
        with (fst (toLocaleDateString_enCA (date x), g)).
      now apply in_map.
  - rewrite (Permutation_length Hperm). apply length_map.
Qed.

Lemma insertSorted_last cmp x acc :
  Forall (fun y => sortCompare cmp y x <= 0) acc ->
  insertSorted cmp x acc = (acc ++ [x])%list.
Proof.
  induction 1 as [|y acc Hy Hacc IH]; simpl.
  - reflexivity.
  - destruct (Z.leb_spec (sortCompare cmp y x) 0); [now rewrite IH | lia].
Qed.

Lemma StronglySorted_before {A} (R : A -> A -> Prop) l1 x l2 :
  StronglySorted R (l1 ++ x :: l2) -> Forall (fun y => R y x) l1.
Proof.
  induction l1 as [|a l1 IH]; simpl; intros Hs.
  - constructor.
  - inversion Hs as [|? ? Hs' Ha]; subst. constructor.
    + rewrite Forall_forall in Ha. apply Ha. apply in_or_app. right. now left.
    + now apply IH.
Qed.

Lemma sort_in_order cmp l :
  StronglySorted (fun a b => sortCompare cmp a b <= 0) l -> sort cmp l = l.
Proof.
  unfold sort.
  assert (Hgen : forall acc,
    StronglySorted (fun a b => sortCompare cmp a b <= 0) (acc ++ l) ->
    fold_left (fun acc x => insertSorted cmp x acc) l acc = (acc ++ l)%list).
  { induction l as [|x l IH]; intros acc Hs; simpl.
    - now rewrite app_nil_r.
    - rewrite insertSorted_last by exact (StronglySorted_before _ _ _ _ Hs).
      rewrite IH; rewrite <- app_assoc; [reflexivity | exact Hs]. }
  intros Hs. now apply (Hgen []).
Qed.

(** X4.  Date keys that already stand in the comparator's order (none has
    to come before an earlier one; ties and keys without a midnight count
    as in order) are left as they are: the sections then follow the first
    occurrences of the dates in the list. *)
Theorem sortedDates_keeps_ordered_keys
    (toLocaleDateString_enCA : string -> string)
    (getTime : string -> option Z) (txs : list Transaction) :
  StronglySorted (fun a b => sortCompare (compareDates getTime) a b <= 0)
    (Obj.keys (groupedTransactions toLocaleDateString_enCA txs)) ->
  sortedDates toLocaleDateString_enCA getTime txs
  = firstOccurrences (map (fun x => toLocaleDateString_enCA (date x)) txs).
Proof.
  intros Hs. unfold sortedDates. rewrite (sort_in_order _ _ Hs).
  apply groupedTransactions_keys_firstOccurrences.
Qed.

Lemma sortedDates_keeps_ordered_keys_witness :
  sortedDates UTCDate.toLocaleDateString_enCA UTCDate.getTime [TX2; TX1; TX2]
  = ["2024-01-02"; "2024-01-01"].
Proof.
  rewrite (sortedDates_keeps_ordered_keys
             UTCDate.toLocaleDateString_enCA UTCDate.getTime [TX2; TX1; TX2]).
  - reflexivity.
  - apply SSorted_cons; [apply SSorted_cons; [apply SSorted_nil|] |].
    + apply Forall_nil.
    + apply Forall_cons; [|apply Forall_nil]. vm_compute. discriminate.
Defined.

Lemma laterDay_trans getTime a b c :
  laterDay getTime a b -> laterDay getTime b c -> laterDay getTime a c.
Proof.
  unfold laterDay.
  destruct (midnight getTime a), (midnight getTime b), (midnight getTime c);
    try tauto; lia.
Qed.

Lemma laterDay_irrefl getTime a : ~ laterDay getTime a a.
Proof. unfold laterDay. destruct (midnight getTime a); [lia | tauto]. Qed.

(** A list has at most one arrangement that is strictly descending. *)
Lemma descending_arrangement_unique getTime l l' :
  StronglySorted (laterDay getTime) l ->
  StronglySorted (laterDay getTime) l' ->
  Permutation l l' -> l = l'.
Proof.
  intros Hs. revert l'.
  induction Hs as [|a l Hs IH Ha]; intros l' Hs' Hperm.
  - now apply Permutation_nil in Hperm.
  - destruct Hs' as [|b l' Hs' Hb].
    + symmetry in Hperm. now apply Permutation_nil in Hperm.
    + assert (Hab : a = b).
      { assert (Hina : In a (b :: l'))
          by (apply (Permutation_in _ Hperm); now left).
        assert (Hinb : In b (a :: l))
          by (apply (Permutation_in _ (Permutation_sym Hperm)); now left).
        destruct Hina as [Heq|Hina]; [now symmetry|].
        destruct Hinb as [Heq|Hinb]; [assumption|].
        rewrite Forall_forall in Ha, Hb.
        exfalso. apply (laterDay_irrefl getTime a).
        apply (laterDay_trans getTime a b a); auto. }
      subst b. f_equal. apply IH; [assumption|].
      now apply Permutation_cons_inv in Hperm.
Qed.

Lemma sortedDates_descending_of_dates
    (toLocaleDateString_enCA : string -> string)
    (getTime : string -> option Z) (txs : list Transaction) :
  (forall x, In x txs ->
     midnight getTime (toLocaleDateString_enCA (date x)) <> None) ->
  (forall x y, In x txs -> In y txs ->
     midnight getTime (toLocaleDateString_enCA (date x))
     = midnight getTime (toLocaleDateString_enCA (date y)) ->
     toLocaleDateString_enCA (date x) = toLocaleDateString_enCA (date y)) ->
  StronglySorted (laterDay getTime)
                 (sortedDates toLocaleDateString_enCA getTime txs).
Proof.
  intros Hvalid Hinj.
  assert (Hperm : Permutation
            (sortedDates toLocaleDateString_enCA getTime txs)
            (Obj.keys (groupedTransactions toLocaleDateString_enCA txs)))
    by apply sort_Permutation.
  assert (Hkeys : Forall (fun k => midnight getTime k <> None)
            (Obj.keys (groupedTransactions toLocaleDateString_enCA txs))).
  { apply Forall_forall. intros k Hk.
    apply groupedTransactions_key_origin in Hk. destruct Hk as [x [Hx <-]].
    now apply Hvalid. }
  apply sorted_distinct_days.
  - apply (Permutation_Forall (Permutation_sym Hperm) Hkeys).
  - apply (Permutation_NoDup (Permutation_sym Hperm)).
    apply groupedTransactions_keys_NoDup.
  - intros a b Ha Hb.
    apply (Permutation_in _ Hperm) in Ha, Hb.
    apply groupedTransactions_key_origin in Ha, Hb.
    destruct Ha as [x [Hx <-]]. destruct Hb as [y [Hy <-]].
    now apply Hinj.
  - now apply sort_sorted.
Qed.

Lemma groupedTransactions_keys_Permutation
    (toLocaleDateString_enCA : string -> string) (txs txs' : list Transaction) :
  Permutation txs txs' ->
  Permutation (Obj.keys (groupedTransactions toLocaleDateString_enCA txs))
              (Obj.keys (groupedTransactions toLocaleDateString_enCA txs')).
Proof.
  intros Hperm.
  apply NoDup_Permutation; try apply groupedTransactions_keys_NoDup.
  assert (Hincl : forall l l', Permutation l l' -> forall k,
    In k (Obj.keys (groupedTransactions toLocaleDateString_enCA l)) ->
    In k (Obj.keys (groupedTransactions toLocaleDateString_enCA l'))).
  { intros l l' Hp k Hk. apply groupedTransactions_key_origin in Hk.
    destruct Hk as [x [Hx <-]]. apply (Permutation_in _ Hp) in Hx.
    destruct (groupedTransactions_member toLocaleDateString_enCA l' x Hx)
      as [g [Hg _]].
    unfold Obj.keys.
    change (toLocaleDateString_enCA (date x))
      with (fst (toLocaleDateString_enCA (date x), g)).
    now apply in_map. }
  intros k. split; apply Hincl; [assumption | now symmetry].
Qed.

(** X5.  Where the date keys denote distinct days, the order of the
    sections does not depend on the order in which the transactions come:
    any rearrangement of the list gives the same sorted keys. *)
Theorem sortedDates_ignores_list_order
    (toLocaleDateString_enCA : string -> string)
    (getTime : string -> option Z) (txs txs' : list Transaction) :
  (forall x, In x txs ->
     midnight getTime (toLocaleDateString_enCA (date x)) <> None) ->
  (forall x y, In x txs -> In y txs ->
     midnight getTime (toLocaleDateString_enCA (date x))
     = midnight getTime (toLocaleDateString_enCA (date y)) ->
     toLocaleDateString_enCA (date x) = toLocaleDateString_enCA (date y)) ->
  Permutation txs txs' ->
  sortedDates toLocaleDateString_enCA getTime txs'
  = sortedDates toLocaleDateString_enCA getTime txs.
Proof.
  intros Hvalid Hinj Hperm.
  apply (descending_arrangement_unique getTime).
  - apply sortedDates_descending_of_dates.
    + intros x Hx. apply Hvalid.
      now apply (Permutation_in _ (Permutation_sym Hperm)).
    + intros x y Hx Hy.
      apply Hinj; now apply (Permutation_in _ (Permutation_sym Hperm)).
  - now apply sortedDates_descending_of_dates.
  - unfold sortedDates. rewrite !sort_Permutation.
    apply groupedTransactions_keys_Permutation. now symmetry.
Qed.

Lemma sortedDates_ignores_list_order_witness :
  sortedDates UTCDate.toLocaleDateString_enCA UTCDate.getTime [TX2; TX1]
  = sortedDates UTCDate.toLocaleDateString_enCA UTCDate.getTime [TX1; TX2].
Proof.
  apply (sortedDates_ignores_list_order
           UTCDate.toLocaleDateString_enCA UTCDate.getTime [TX1; TX2] [TX2; TX1]).
  - intros x [<-|[<-|[]]]; vm_compute; discriminate.
  - intros x y [<-|[<-|[]]] [<-|[<-|[]]]; vm_compute; congruence.
  - apply perm_swap.
Defined.

(** ** What is on the screen *)

Lemma groups_along_keys (o : Obj.obj (list Transaction)) :
  NoDup (Obj.keys o) ->
  flat_map (fun k => groupOf k o) (Obj.keys o) = List.concat (Obj.values o).
Proof.
  induction o as [|[k g] o IH]; simpl; intros Hnd.
  - reflexivity.
  - inversion Hnd as [|? ? Hnotin Hnd']; subst.
    unfold groupOf at 1. simpl. rewrite String.eqb_refl. f_equal.
    rewrite <- (IH Hnd'). rewrite !flat_map_concat_map. f_equal.
    apply map_ext_in. intros k' Hk'. unfold groupOf. simpl.
    destruct (String.eqb_spec k k') as [->|Hne]; [contradiction | reflexivity].
Qed.

Lemma section_items
    (toLocaleDateString_enCA : string -> string)
    (txs : list Transaction) (k : string) :
  map card_item
    (section_cards
       (renderDateSection (groupedTransactions toLocaleDateString_enCA txs) k))
  = filter (fun x => String.eqb (toLocaleDateString_enCA (date x)) k) txs.
Proof.
  simpl. rewrite map_map. simpl. rewrite map_id.
  rewrite groupedTransactions_get. now destruct (filter _ txs).
Qed.

Lemma screen_items
    (toLocaleDateString_enCA : string -> string)
    (getTime : string -> option Z) (txs : list Transaction) :
  map card_item
    (screenCards (render toLocaleDateString_enCA getTime txs false))
  = flat_map
      (fun k => groupOf k (groupedTransactions toLocaleDateString_enCA txs))
      (sortedDates toLocaleDateString_enCA getTime txs).
Proof.
  unfold screenCards. simpl.
  rewrite !flat_map_concat_map, concat_map, !map_map. f_equal.
  apply map_ext. intros k. simpl. rewrite map_map. simpl. apply map_id.
Qed.

(** X6.  Once loading is over, the cards on the screen are the transactions
    of the list, each as often as the list has it, whatever [Date] makes of
    their dates; while loading, there is no card. *)
Theorem every_transaction_has_one_card
    (toLocaleDateString_enCA : string -> string)
    (getTime : string -> option Z) (txs : list Transaction) :
  Permutation
    (map card_item
       (screenCards (render toLocaleDateString_enCA getTime txs false)))
    txs /\
  List.length (screenCards (render toLocaleDateString_enCA getTime txs false))
  = List.length txs /\
  screenCards (render toLocaleDateString_enCA getTime txs true) = [].
Proof.
  assert (Hperm : Permutation
    (map card_item
       (screenCards (render toLocaleDateString_enCA getTime txs false)))
    txs).
  { rewrite screen_items. unfold sortedDates.
    etransitivity; [apply Permutation_flat_map, sort_Permutation|].
    rewrite groups_along_keys by apply groupedTransactions_keys_NoDup.
    apply groupedTransactions_concat. }
  split; [exact Hperm|]. split; [|reflexivity].
  rewrite <- (Permutation_length Hperm). symmetry. apply length_map.
Qed.

(** X7.  Every section of the screen has at least one card, its cards are
    the transactions of the list with the section's date key, in the order
    of the list, and no two sections have the same date; an empty list
    gives no section. *)
Theorem sections_hold_the_days_transactions
    (toLocaleDateString_enCA : string -> string)
    (getTime : string -> option Z) (txs : list Transaction) :
  (forall d,
     In d (screenSections (render toLocaleDateString_enCA getTime txs false)) ->
     section_cards d <> [] /\
     map card_item (section_cards d)
     = filter (fun x => String.eqb (toLocaleDateString_enCA (date x))
                                   (section_date d)) txs) /\
  NoDup (map section_date
           (screenSections
              (render toLocaleDateString_enCA getTime txs false))) /\
  (screenSections (render toLocaleDateString_enCA getTime txs false) = []
   <-> txs = []).
Proof.
  assert (Hperm : Permutation
            (sortedDates toLocaleDateString_enCA getTime txs)
            (Obj.keys (groupedTransactions toLocaleDateString_enCA txs)))
    by apply sort_Permutation.
  split; [|split].
  - simpl. intros d Hd. apply in_map_iff in Hd. destruct Hd as [k [<- Hk]].
    split; [|apply section_items].
    apply (Permutation_in _ Hperm) in Hk.
    apply groupedTransactions_key_origin in Hk. destruct Hk as [x [Hx Hkey]].
    intros Hnil.
    assert (Hin : In x (map card_item
      (section_cards
         (renderDateSection
            (groupedTransactions toLocaleDateString_enCA txs) k)))).
    { rewrite section_items. apply filter_In.
      split; [exact Hx | now apply String.eqb_eq]. }
    rewrite Hnil in Hin. contradiction.
  - simpl. rewrite map_map. simpl. rewrite map_id.
    apply (Permutation_NoDup (Permutation_sym Hperm)).
    apply groupedTransactions_keys_NoDup.
  - simpl. split.
    + intros Hnil. apply map_eq_nil in Hnil.
      rewrite Hnil in Hperm. apply Permutation_nil in Hperm.
      destruct txs as [|x l]; [reflexivity|]. exfalso.
      destruct (groupedTransactions_member toLocaleDateString_enCA (x :: l) x)
        as [g [Hg _]]; [now left|].
      unfold Obj.keys in Hperm. apply map_eq_nil in Hperm.
      rewrite Hperm in Hg. contradiction.
    + now intros ->.
Qed.

(** X8.  Once loading is over, the screen offers the tap for exactly the
    transactions of the list and the receipt prompt for exactly those of
    them whose receipt is unconfirmed; it never offers the confirmation
    itself. *)
Theorem screen_offers_taps_and_pending_prompts
    (toLocaleDateString_enCA : string -> string)
    (getTime : string -> option Z) (txs : list Transaction)
    (item : Transaction) :
  (In (OnTransactionTap item)
      (screenCallbacks (render toLocaleDateString_enCA getTime txs false))
   <-> In item txs) /\
  (In (OnReceiptConfirm item)
      (screenCallbacks (render toLocaleDateString_enCA getTime txs false))
   <-> In item txs /\ has_good_receipt item = false) /\
  ~ In (OnConfirmPress item)
       (screenCallbacks (render toLocaleDateString_enCA getTime txs false)) /\
  ~ In NoCallback
       (screenCallbacks (render toLocaleDateString_enCA getTime txs false)).
Proof.
  assert (Hcards : forall c,
    In c (screenCallbacks (render toLocaleDateString_enCA getTime txs false))
    <-> exists x, In x txs /\ In c (cardCallbacks (renderTransaction x))).
  { intros c.
    simpl.
    rewrite in_flat_map. split.
    - intros [d [Hd Hc]]. apply in_map_iff in Hd. destruct Hd as [k [<- Hk]].
      simpl in Hc. apply in_flat_map in Hc. destruct Hc as [card [Hcard Hc]].
      apply in_map_iff in Hcard. destruct Hcard as [x [<- Hx]].
      exists x. split; [|exact Hc].
      unfold Obj.get in Hx.
      pose proof (groupedTransactions_get toLocaleDateString_enCA txs k) as Hget.
      unfold Obj.get in Hget. rewrite Hget in Hx.
      destruct (filter _ txs) as [|y g] eqn:E; [contradiction|].
      rewrite <- E in Hx. now apply filter_In in Hx.
    - intros [x [Hx Hc]].
      destruct (groupedTransactions_member toLocaleDateString_enCA txs x Hx)
        as [g [Hg Hxg]].
      exists (renderDateSection
                (groupedTransactions toLocaleDateString_enCA txs)
                (toLocaleDateString_enCA (date x))).
      split.
      + apply in_map.
        apply (Permutation_in _ (Permutation_sym (sort_Permutation _ _))).
        unfold Obj.keys.
        change (toLocaleDateString_enCA (date x))
          with (fst (toLocaleDateString_enCA (date x), g)).
        now apply in_map.
      + simpl.
        rewrite (ObjFacts.In_get _ _ _
                   (groupedTransactions_keys_NoDup toLocaleDateString_enCA txs)
                   Hg).
        apply in_flat_map. exists (renderTransaction x).
        split; [now apply in_map | exact Hc]. }
  assert (Hkinds : forall x c,
    In c (cardCallbacks (renderTransaction x)) <->
    c = OnTransactionTap x \/
    (c = OnReceiptConfirm x /\ has_good_receipt x = false)).
  { intros x c. unfold cardCallbacks, renderTransaction. simpl.
    destruct (has_good_receipt x); simpl; intuition congruence. }
  split; [split|split; [split|split]].
  - intros Hin. apply Hcards in Hin. destruct Hin as [x [Hx Hc]].
    apply Hkinds in Hc. destruct Hc as [Heq|[Heq _]]; [|discriminate].
    now injection Heq as ->.
  - intros Hin. apply Hcards. exists item. split; [exact Hin|].
    apply Hkinds. now left.
  - intros Hin. apply Hcards in Hin. destruct Hin as [x [Hx Hc]].
    apply Hkinds in Hc. destruct Hc as [Heq|[Heq Hflag]]; [discriminate|].
    injection Heq as ->. now split.
  - intros [Hin Hflag]. apply Hcards. exists item. split; [exact Hin|].
    apply Hkinds. now right.
  - intros Hin. apply Hcards in Hin. destruct Hin as [x [_ Hc]].
    apply Hkinds in Hc. destruct Hc as [Heq|[Heq _]]; discriminate.
  - intros Hin. apply Hcards in Hin. destruct Hin as [x [_ Hc]].
    apply Hkinds in Hc. destruct Hc as [Heq|[Heq _]]; discriminate.
Qed.

(** ** The handlers, whatever the storage does *)

Lemma invoke_returns `{StorageService}
    (t : string -> list (string * string) -> string)
    (c : Callback) (w : World) :
  fst (invoke t c w) = inr tt.
Proof.
  destruct c as [item|item|tx|]; simpl; try reflexivity.
  - unfold handleReceiptConfirm. now destruct (has_good_receipt item).
  - destruct (saveTransaction (updatedTransaction tx) (store w)) as [e|s']
      eqn:Hsave.
    + now rewrite (confirmOnPress_rejected t tx w e Hsave).
    + now rewrite (confirmOnPress_resolved t tx w s' Hsave).
Qed.

Lemma loadTransactions_returns `{StorageService} (w : World) :
  fst (loadTransactions w) = inr tt.
Proof.
  destruct (getTransactions (store w)) as [e|l] eqn:Hget.
  - now rewrite (loadTransactions_rejected w e Hget).
  - now rewrite (loadTransactions_resolved w l Hget).
Qed.

(** X9.  No handler of the screen throws: the load routine and every
    callback return normally whether the storage calls resolve or reject. *)
Theorem handlers_never_throw `{StorageService}
    (t : string -> list (string * string) -> string)
    (c : Callback) (w : World) :
  fst (loadTransactions w) = inr tt /\ fst (invoke t c w) = inr tt.
Proof. split; [apply loadTransactions_returns | apply invoke_returns]. Qed.

(** X11.  When the save of a confirmation succeeds and the re-fetch that
    follows fails, the record is stored, the load error is logged, the list
    on the screen stays the one from before, and the success alert is shown
    all the same. *)
Theorem confirmation_with_failed_refetch `{StorageService}
    (t : string -> list (string * string) -> string)
    (tx : Transaction) (w : World) (s' : Store) (e : Error) :
  saveTransaction (updatedTransaction tx) (store w) = inr s' ->
  getTransactions s' = inl e ->
  store (exec (confirmOnPress t tx) w) = s' /\
  transactions (exec (confirmOnPress t tx) w) = transactions w /\
  console (exec (confirmOnPress t tx) w)
  = (console w ++ [("Error loading transactions:", e)])%list /\
  alerts (exec (confirmOnPress t tx) w)
  = (alerts w ++
     [{| title := t "confirmReceipt" []; message := t "receiptConfirmed" [];
         buttons := [] |}])%list /\
  loading (exec (confirmOnPress t tx) w) = false.
Proof.
  intros Hsave Hget. unfold exec.
  rewrite (confirmOnPress_resolved t tx w s' Hsave). simpl.
  rewrite Hget. repeat split.
Qed.

Lemma confirmation_with_failed_refetch_witness :
  transactions (exec (confirmOnPress keysAsText TX1) staleScreen) = [TX1] /\
  records (store (exec (confirmOnPress keysAsText TX1) staleScreen))
  = [updatedTransaction TX1] /\
  alerts (exec (confirmOnPress keysAsText TX1) staleScreen)
  = [{| title := "confirmReceipt"; message := "receiptConfirmed";
        buttons := [] |}].
Proof.
  destruct (@confirmation_with_failed_refetch memoryStorage keysAsText TX1
              staleScreen
              {| records := [updatedTransaction TX1];
                 readable := false; writable := true |}
              "storage cannot be read" eq_refl eq_refl)
    as (Hstore & Htxs & _ & Halerts & _).
  split; [exact Htxs|]. split; [now rewrite Hstore | exact Halerts].
Defined.

Lemma append_inj_r (p a b : string) : (p ++ a = p ++ b)%string -> a = b.
Proof.
  induction p as [|c p IH]; simpl; intros Heq; [exact Heq|].
  injection Heq as Heq. now apply IH.
Qed.

(** X12.  The route a tap pushes determines the transaction: taps that push
    the same route are taps on transactions with the same identifier. *)
Theorem tap_route_determines_transaction `{StorageService}
    (x y : Transaction) (w : World) :
  navigation (exec (handleTransactionTap x) w)
  = navigation (exec (handleTransactionTap y) w) ->
  transaction_id x = transaction_id y.
Proof.
  unfold exec, handleTransactionTap, router_push.
  cbn [snd navigation]. intros Heq.
  apply app_inv_head in Heq.
  assert (Hhref : ("/order-detail?transactionId=" ++ transaction_id x
                   = "/order-detail?transactionId=" ++ transaction_id y)%string)
    by congruence.
  exact (append_inj_r _ _ _ Hhref).
Qed.

Lemma tap_route_determines_transaction_witness :
  transaction_id TX1 = transaction_id (updatedTransaction TX1).
Proof.
  apply (tap_route_determines_transaction TX1 (updatedTransaction TX1)
           loadedScreen).
  reflexivity.
Defined.

(** X13.  When the read resolves, the load routine replaces the list on the
    screen, whatever it was, by what the store returned, clears the loading
    indicator, and logs and alerts nothing; loading once more right after
    shows the same. *)
Theorem loadTransactions_read_success `{StorageService}
    (w : World) (l : list Transaction) :
  getTransactions (store w) = inr l ->
  transactions (exec loadTransactions w) = l /\
  loading (exec loadTransactions w) = false /\
  console (exec loadTransactions w) = console w /\
  alerts (exec loadTransactions w) = alerts w /\
  navigation (exec loadTransactions w) = navigation w /\
  store (exec loadTransactions w) = store w /\
  transactions (exec loadTransactions (exec loadTransactions w)) = l /\
  console (exec loadTransactions (exec loadTransactions w)) = console w.
Proof.
  intros Hget. unfold exec.
  rewrite (loadTransactions_resolved w l Hget). simpl.
  rewrite (loadTransactions_resolved _ l) by exact Hget.
  repeat split.
Qed.

Lemma loadTransactions_read_success_witness :
  transactions (exec loadTransactions readOnlyScreen) = [TX1; TX2] /\
  loading (exec loadTransactions readOnlyScreen) = false.
Proof.
  destruct (loadTransactions_read_success readOnlyScreen [TX1; TX2] eq_refl)
    as (Htxs & Hloading & _).
  split; [exact Htxs | exact Hloading].
Defined.

(** ** What holds of every state the mounted screen reaches *)

Section ReachableFacts.
Context `{StorageService}.
Variable toLocaleDateString_enCA : string -> string.
Variable getTime : string -> option Z.
Variable t : string -> list (string * string) -> string.

Lemma loadTransactions_loading w : loading (exec loadTransactions w) = false.
Proof.
  unfold exec. destruct (getTransactions (store w)) as [e|l] eqn:Hget.
  - now rewrite (loadTransactions_rejected w e Hget).
  - now rewrite (loadTransactions_resolved w l Hget).
Qed.

Lemma invoke_loading c w :
  loading w = false -> loading (exec (invoke t c) w) = false.
Proof.
  intros Hloading. destruct c as [item|item|tx|]; simpl; try assumption.
  - unfold handleReceiptConfirm. now destruct (has_good_receipt item).
  - unfold exec.
    destruct (saveTransaction (updatedTransaction tx) (store w)) as [e|s']
      eqn:Hsave.
    + now rewrite (confirmOnPress_rejected t tx w e Hsave).
    + now rewrite (confirmOnPress_resolved t tx w s' Hsave).
Qed.

Lemma reachable_loading_initial w :
  reachable toLocaleDateString_enCA getTime t w ->
  loading w = true -> w = initialWorld (store w).
Proof.
  induction 1 as [s|w e w' Hreach IH Hstep]; intros Hloading.
  - reflexivity.
  - exfalso. destruct Hstep as [| |c Hc].
    + rewrite loadTransactions_loading in Hloading. discriminate.
    + rewrite loadTransactions_loading in Hloading. discriminate.
    + destruct (loading w) eqn:Hw.
      * rewrite (IH eq_refl) in Hc. exact Hc.
      * rewrite (invoke_loading c w Hw) in Hloading. discriminate.
Qed.


End ReachableFacts.

(** X14.  While the loading indicator shows, the screen is inert: no dialog
    has been shown, no route has been pushed, and there is nothing to
    press; all that can happen to it is the load of mount or focus. *)
Theorem loading_screen_is_inert `{StorageService}
    (toLocaleDateString_enCA : string -> string)
    (getTime : string -> option Z)
    (t : string -> list (string * string) -> string) (w : World) :
  reachable toLocaleDateString_enCA getTime t w ->
  loading w = true ->
  alerts w = [] /\
  navigation w = [] /\
  offered toLocaleDateString_enCA getTime w = [] /\
  forall e w', step toLocaleDateString_enCA getTime t w e w' ->
               e = Mounted \/ e = Focused.
Proof.
  intros Hreach Hloading.
  pose proof (reachable_loading_initial _ _ _ w Hreach Hloading) as Hinit.
  split; [now rewrite Hinit|]. split; [now rewrite Hinit|].
  split; [now rewrite Hinit|].
  intros e w' Hstep. destruct Hstep as [| |c Hc]; [now left | now right|].
  rewrite Hinit in Hc. destruct Hc.
Qed.

Lemma loading_screen_is_inert_witness :
  loading (@initialWorld memoryStorage workingStore) = true /\
  offered UTCDate.toLocaleDateString_enCA UTCDate.getTime
    (@initialWorld memoryStorage workingStore) = [].
Proof.
  destruct (loading_screen_is_inert
              UTCDate.toLocaleDateString_enCA UTCDate.getTime keysAsText
              (@initialWorld memoryStorage workingStore)
              (@reachable_initial memoryStorage _ _ _ workingStore) eq_refl)
    as (_ & _ & Hoffered & _).
  split; [reflexivity | exact Hoffered].
Defined.

(** X15.  Every step of the mounted screen ends with the loading indicator
    cleared: a load clears it whether the read resolves or rejects, and
    nothing sets it again. *)
Theorem loading_indicator_never_returns `{StorageService}
    (toLocaleDateString_enCA : string -> string)
    (getTime : string -> option Z)
    (t : string -> list (string * string) -> string)
    (w : World) (e : Event) (w' : World) :
  reachable toLocaleDateString_enCA getTime t w ->
  step toLocaleDateString_enCA getTime t w e w' ->
  loading w' = false.
Proof.
  intros Hreach Hstep. destruct Hstep as [| |c Hc].
  - apply loadTransactions_loading.
  - apply loadTransactions_loading.
  - apply invoke_loading. destruct (loading w) eqn:Hw; [|reflexivity].
    rewrite (reachable_loading_initial _ _ _ w Hreach Hw) in Hc. destruct Hc.
Qed.

Lemma loading_indicator_never_returns_witness :
  loading (exec loadTransactions
             (@initialWorld memoryStorage
                {| records := [TX1]; readable := false; writable := true |}))
  = false.
Proof.
  apply (loading_indicator_never_returns
           UTCDate.toLocaleDateString_enCA UTCDate.getTime keysAsText
           (@initialWorld memoryStorage
              {| records := [TX1]; readable := false; writable := true |})
           Mounted).
  - apply reachable_initial.
  - apply step_mounted.
Defined.



(** ** How grouping composes *)

(** X17.  Grouping a list followed by another gives, under every date key,
    the group of the first followed by the group of the second. *)
Theorem grouping_of_appended_lists
    (toLocaleDateString_enCA : string -> string)
    (l1 l2 : list Transaction) (k : string) :
  groupOf k (groupedTransactions toLocaleDateString_enCA (l1 ++ l2))
  = (groupOf k (groupedTransactions toLocaleDateString_enCA l1)
     ++ groupOf k (groupedTransactions toLocaleDateString_enCA l2))%list.
Proof.
  unfold groupOf. rewrite !groupedTransactions_get, filter_app.
  destruct (filter _ l1), (filter _ l2); reflexivity.
Qed.

(** X18.  Sections depend on the dates alone: rewriting the transactions of
    the list without touching their dates (as the receipt confirmation
    does) leaves the date keys and their order as they are, and each group
    holds the rewritten transactions of the old group. *)
Theorem sections_depend_on_dates_only
    (toLocaleDateString_enCA : string -> string)
    (getTime : string -> option Z)
    (f : Transaction -> Transaction) (txs : list Transaction) :
  (forall x, In x txs -> date (f x) = date x) ->
  sortedDates toLocaleDateString_enCA getTime (map f txs)
  = sortedDates toLocaleDateString_enCA getTime txs /\
  forall k,
    groupOf k (groupedTransactions toLocaleDateString_enCA (map f txs))
    = map f (groupOf k (groupedTransactions toLocaleDateString_enCA txs)).
Proof.
  intros Hdate. split.
  - unfold sortedDates. rewrite !groupedTransactions_keys_firstOccurrences.
    rewrite map_map. do 2 f_equal. apply map_ext_in.
    intros x Hx. now rewrite Hdate.
  - intros k. unfold groupOf. rewrite !groupedTransactions_get.
    assert (Hfilter :
      filter (fun x => String.eqb (toLocaleDateString_enCA (date x)) k)
             (map f txs)
      = map f (filter
                 (fun x => String.eqb (toLocaleDateString_enCA (date x)) k)
                 txs)).
    { clear -Hdate. induction txs as [|x l IH]; simpl; [reflexivity|].
      rewrite (Hdate x) by now left.
      rewrite IH by (intros y Hy; apply Hdate; now right).
      now destruct (String.eqb _ k). }
    rewrite Hfilter. now destruct (filter _ txs).
Qed.

Lemma sections_depend_on_dates_only_witness :
  sortedDates UTCDate.toLocaleDateString_enCA UTCDate.getTime
    (map updatedTransaction [TX1; TX2])
  = ["2024-01-02"; "2024-01-01"].
Proof.
  destruct (sections_depend_on_dates_only
              UTCDate.toLocaleDateString_enCA UTCDate.getTime
              updatedTransaction [TX1; TX2])
    as [Hsame _].
  - intros x _. reflexivity.
  - rewrite Hsame. reflexivity.
Defined.

(** ** The dialogs of the screen *)

(** X10.  The screen shows three kinds of dialog and no other: the receipt
    prompt for a transaction whose receipt is unconfirmed, with a cancel and
    a confirm button, the notice that a receipt is confirmed, and the
    generic error notice.  Pressing a cancel button changes nothing. *)
Theorem only_three_kinds_of_dialog `{StorageService}
    (toLocaleDateString_enCA : string -> string)
    (getTime : string -> option Z)
    (t : string -> list (string * string) -> string)
    (w : World) (a : AlertDialog) :
  reachable toLocaleDateString_enCA getTime t w ->
  In a (alerts w) ->
  ((exists tx,
      has_good_receipt tx = false /\
      a = {| title := t "confirmReceipt" [];
             message := t "confirmReceiptMessage"
                          [("transactionId", transaction_id tx)];
             buttons :=
               [ {| text := t "cancel" []; style := Some "cancel";
                    onPress := NoCallback |};
                 {| text := t "confirm" []; style := None;
                    onPress := OnConfirmPress tx |} ] |})
   \/ a = {| title := t "confirmReceipt" []; message := t "receiptConfirmed" [];
             buttons := [] |}
   \/ a = {| title := t "error" []; message := t "receiptConfirmError" [];
             buttons := [] |}) /\
  (forall b (w1 : World),
     In b (buttons a) -> style b = Some "cancel" ->
     invoke t (onPress b) w1 = (inr tt, w1)).
Proof.
  intros Hreach Hin.
  assert (Hshape :
    (exists tx,
       has_good_receipt tx = false /\
       a = {| title := t "confirmReceipt" [];
              message := t "confirmReceiptMessage"
                           [("transactionId", transaction_id tx)];
              buttons :=
                [ {| text := t "cancel" []; style := Some "cancel";
                     onPress := NoCallback |};
                  {| text := t "confirm" []; style := None;
                     onPress := OnConfirmPress tx |} ] |})
    \/ a = {| title := t "confirmReceipt" []; message := t "receiptConfirmed" [];
              buttons := [] |}
    \/ a = {| title := t "error" []; message := t "receiptConfirmError" [];
              buttons := [] |}).
  { revert a Hin. induction Hreach as [s|w e w' Hreach IH Hstep]; intros a Hin.
    - destruct Hin.
    - destruct Hstep as [| |c Hc].
      + rewrite loadTransactions_alerts in Hin. now apply IH.
      + rewrite loadTransactions_alerts in Hin. now apply IH.
      + destruct c as [item|item|tx|]; simpl in Hin.
        * now apply IH.
        * unfold handleReceiptConfirm in Hin.
          destruct (has_good_receipt item) eqn:Hflag; [now apply IH|].
          simpl in Hin. apply in_app_or in Hin.
          destruct Hin as [Hin|[<-|[]]]; [now apply IH|].
          left. now exists item.
        * unfold exec in Hin.
          destruct (saveTransaction (updatedTransaction tx) (store w))
            as [e|s'] eqn:Hsave.
          -- rewrite (confirmOnPress_rejected t tx w e Hsave) in Hin.
             simpl in Hin. apply in_app_or in Hin.
             destruct Hin as [Hin|[<-|[]]]; [now apply IH|]. now right; right.
          -- rewrite (confirmOnPress_resolved t tx w s' Hsave) in Hin.
             simpl in Hin. apply in_app_or in Hin.
             destruct Hin as [Hin|[<-|[]]]; [now apply IH|]. now right; left.
        * now apply IH. }
  split; [exact Hshape|].
  intros b w1 Hb Hstyle.
  destruct Hshape as [[tx [_ ->]]|[->| ->]]; simpl in Hb.
  - destruct Hb as [<-|[<-|[]]]; [reflexivity | discriminate].
  - destruct Hb.
  - destruct Hb.
Qed.

Lemma only_three_kinds_of_dialog_witness :
  alerts (exec (handleReceiptConfirm keysAsText TX1) loadedScreen)
  = [{| title := "confirmReceipt"; message := "confirmReceiptMessage";
        buttons :=
          [ {| text := "cancel"; style := Some "cancel";
               onPress := NoCallback |};
            {| text := "confirm"; style := None;
               onPress := OnConfirmPress TX1 |} ] |}]
  /\ forall b (w1 : @World memoryStorage),
       In b [ {| text := "cancel"; style := Some "cancel";
                 onPress := NoCallback |};
              {| text := "confirm"; style := None;
                 onPress := OnConfirmPress TX1 |} ] ->
       style b = Some "cancel" ->
       invoke keysAsText (onPress b) w1 = (inr tt, w1).
Proof.
  split; [reflexivity|].
  refine (proj2 (only_three_kinds_of_dialog
                   UTCDate.toLocaleDateString_enCA UTCDate.getTime keysAsText
                   (exec (handleReceiptConfirm keysAsText TX1) loadedScreen)
                   {| title := "confirmReceipt";
                      message := "confirmReceiptMessage";
                      buttons :=
                        [ {| text := "cancel"; style := Some "cancel";
                             onPress := NoCallback |};
                          {| text := "confirm"; style := None;
                             onPress := OnConfirmPress TX1 |} ] |}
                   _ _)).
  - apply (reachable_step _ _ _ loadedScreen (Pressed (OnReceiptConfirm TX1))).
    + apply (reachable_step _ _ _
               (@initialWorld memoryStorage workingStore) Mounted).
      * apply reachable_initial.
      * apply step_mounted.
    + apply (step_pressed _ _ keysAsText loadedScreen (OnReceiptConfirm TX1)).
      vm_compute. do 3 right. left. reflexivity.
  - left. reflexivity.
Defined.
